(** * Pipeline analyzer: a shallow embedding of [main.py]

    The development follows the Python source function by function:
    the JSON values the endpoint receives, the Python primitives the code
    applies to them ([.get], truthiness, hashing, [len], iteration), the
    adjacency construction and the three-colour depth-first traversal of
    [check_is_dag_raw], and the request handler [parse_pipeline].

    Modelling conventions.
    - Exceptions are explicit: every fallible step returns a [result].
    - A Python [dict] is a [gmap]; dictionary keys are the hashable values
      up to Python equality ([True == 1]), see [key].
    - A Python [set] is represented by the list of its elements in
      iteration order.  That order is fixed by the interpreter, not by the
      program, so it is a parameter ([set_order]) of the development.
    - JSON numbers are integers; non-integer numbers are left out.
      Strings are sequences of one-byte characters.
    - The interpreter bounds the depth of recursion and raises
      [RecursionError] beyond it.  [has_cycle] carries the number of its
      own frames the interpreter still admits; how many it admits when the
      search starts depends on the interpreter's settings and on the depth
      the handler runs at, so it is a parameter ([nesting_limit]). *)

From stdpp Require Import gmap strings list fin_maps relations.

Set Warnings "-register-all".
Open Scope string_scope.
Open Scope list_scope.
Open Scope nat_scope.

(** * Part I: the program *)

(** ** JSON values and Python exceptions *)

Inductive json :=
  | JNull
  | JBool (b : bool)
  | JInt (z : Z)
  | JStr (s : string)
  | JList (l : list json)
  | JDict (d : gmap string json).

Inductive exn :=
  | TypeError
  | AttributeError
  | KeyError
  | IndexError
  | JSONDecodeError
  | RecursionError.

Inductive result (A : Type) :=
  | Ok (a : A)
  | Raise (e : exn).
Arguments Ok {A} a.
Arguments Raise {A} e.

#[global] Instance result_ret : MRet result := λ A a, Ok a.
#[global] Instance result_bind : MBind result := λ A B f m,
  match m with
  | Ok a => f a
  | Raise e => Raise e
  end.

#[global] Instance exn_eq_dec : EqDecision exn.
Proof. solve_decision. Defined.

(** ** Dictionary keys

    Hashable JSON values up to Python's equality: [True] and [1] (and
    [False] and [0]) are the same key. *)

Inductive key :=
  | KNone
  | KNum (z : Z)
  | KStr (s : string).

#[global] Instance key_eq_dec : EqDecision key.
Proof. solve_decision. Defined.

#[global] Instance key_countable : Countable key.
Proof.
  refine (inj_countable'
    (λ k, match k with
          | KNone => inl ()
          | KNum z => inr (inl z)
          | KStr s => inr (inr s)
          end)
    (λ x, match x with
          | inl _ => KNone
          | inr (inl z) => KNum z
          | inr (inr s) => KStr s
          end) _).
  by intros [].
Defined.

(** [key_of v] is the key [v] hashes to; lists and dicts are unhashable. *)
Definition key_of (v : json) : option key :=
  match v with
  | JNull => Some KNone
  | JBool b => Some (KNum (Z.b2z b))
  | JInt z => Some (KNum z)
  | JStr s => Some (KStr s)
  | JList _ | JDict _ => None
  end.

(** ** Python primitives *)

(** [bool(v)] *)
Definition truthy (v : json) : bool :=
  match v with
  | JNull => false
  | JBool b => b
  | JInt z => negb (Z.eqb z 0)
  | JStr s => match s with EmptyString => false | String _ _ => true end
  | JList l => match l with [] => false | _ :: _ => true end
  | JDict d => negb (Nat.eqb (size d) 0)
  end.

(** [hash(v)], as performed by set insertion and [v in d]. *)
Definition hash_key (v : json) : result key :=
  match key_of v with
  | Some k => Ok k
  | None => Raise TypeError
  end.

(** [v.get(k, dflt)]: only dicts have the method. *)
Definition py_get_default (v : json) (k : string) (dflt : json) : result json :=
  match v with
  | JDict d => Ok (default dflt (d !! k))
  | _ => Raise AttributeError
  end.

(** [v.get(k)] *)
Definition py_get (v : json) (k : string) : result json :=
  py_get_default v k JNull.

Fixpoint chars (s : string) : list json :=
  match s with
  | EmptyString => []
  | String c s' => JStr (String c EmptyString) :: chars s'
  end.

(** [len(v)] *)
Definition py_len (v : json) : result nat :=
  match v with
  | JList l => Ok (length l)
  | JStr s => Ok (String.length s)
  | JDict d => Ok (size d)
  | JNull | JBool _ | JInt _ => Raise TypeError
  end.

(** [iter(v)]: the elements a [for] loop or comprehension ranges over; a
    dict yields its keys, a string its characters. *)
Definition py_iter (v : json) : result (list json) :=
  match v with
  | JList l => Ok l
  | JStr s => Ok (chars s)
  | JDict d => Ok (JStr <$> (map_to_list d).*1)
  | JNull | JBool _ | JInt _ => Raise TypeError
  end.

(** [v[0]]; the keys of a decoded JSON object are strings, never [0]. *)
Definition py_index0 (v : json) : result json :=
  match v with
  | JList (x :: _) => Ok x
  | JList [] => Raise IndexError
  | JStr (String c _) => Ok (JStr (String c EmptyString))
  | JStr EmptyString => Raise IndexError
  | JDict _ => Raise KeyError
  | JNull | JBool _ | JInt _ => Raise TypeError
  end.

(** [d[k]] on a dictionary *)
Definition lookup_key {V : Type} (m : gmap key V) (k : key) : result V :=
  match m !! k with
  | Some v => Ok v
  | None => Raise KeyError
  end.

(** ** The analyzer: [check_is_dag_raw] *)

Inductive color := WHITE | GRAY | BLACK.

#[global] Instance color_eq_dec : EqDecision color.
Proof. solve_decision. Defined.

(** [{node.get('id') for node in nodes if node.get('id')}], the ids in
    insertion order. *)
Fixpoint collect_ids (nodes : list json) : result (list key) :=
  match nodes with
  | [] => Ok []
  | node :: rest =>
      i ← py_get node "id";
      if truthy i then
        v ← py_get node "id";
        k ← hash_key v;
        ks ← collect_ids rest;
        Ok (k :: ks)
      else collect_ids rest
  end.

(** [for node_id in node_ids: graph[node_id] = []] *)
Definition init_graph (node_ids : list key) : gmap key (list key) :=
  foldl (λ graph node_id, <[node_id := []]> graph) ∅ node_ids.

(** The body of [for edge in edges]. *)
Definition add_edge (graph : gmap key (list key)) (edge : json)
  : result (gmap key (list key)) :=
  source ← py_get edge "source";
  target ← py_get edge "target";
  if truthy source then
    if truthy target then
      s ← hash_key source;
      if decide (is_Some (graph !! s)) then
        t ← hash_key target;
        if decide (is_Some (graph !! t)) then
          succs ← lookup_key graph s;
          Ok (<[s := succs ++ [t]]> graph)
        else Ok graph
      else Ok graph
    else Ok graph
  else Ok graph.

Fixpoint add_edges (edges : list json) (graph : gmap key (list key))
  : result (gmap key (list key)) :=
  match edges with
  | [] => Ok graph
  | edge :: rest => graph' ← add_edge graph edge; add_edges rest graph'
  end.

(** [{node_id: WHITE for node_id in node_ids}] *)
Definition init_color (node_ids : list key) : gmap key color :=
  foldl (λ col node_id, <[node_id := WHITE]> col) ∅ node_ids.

(** The [for neighbor in graph[node]] loop of [has_cycle], with the
    recursive call abstracted as [visit]; it ends with
    [color[node] = BLACK; return False]. *)
Fixpoint scan (visit : key → gmap key color → result (bool * gmap key color))
    (node : key) (neighbors : list key) (col : gmap key color)
  : result (bool * gmap key color) :=
  match neighbors with
  | [] => Ok (false, <[node := BLACK]> col)
  | neighbor :: rest =>
      c ← lookup_key col neighbor;
      match c with
      | GRAY => Ok (true, col)
      | WHITE =>
          '(found, col') ← visit neighbor col;
          if found : bool then Ok (true, col') else scan visit node rest col'
      | BLACK => scan visit node rest col
      end
  end.

(** [has_cycle(node)]; the colour map the closure mutates is threaded
    through.  [depth] is the number of frames of [has_cycle] the
    interpreter still admits: a call with none left raises
    [RecursionError] before it runs, a call with [S depth'] runs and leaves
    [depth'] to the calls it makes. *)
Fixpoint has_cycle (depth : nat) (graph : gmap key (list key)) (node : key)
    (col : gmap key color) : result (bool * gmap key color) :=
  match depth with
  | O => Raise RecursionError
  | S depth' =>
      let col := <[node := GRAY]> col in
      neighbors ← lookup_key graph node;
      scan (has_cycle depth' graph) node neighbors col
  end.

(** The final [for node_id in node_ids] loop. *)
Fixpoint visit_all (visit : key → gmap key color → result (bool * gmap key color))
    (node_ids : list key) (col : gmap key color) : result bool :=
  match node_ids with
  | [] => Ok true
  | node_id :: rest =>
      c ← lookup_key col node_id;
      match c with
      | WHITE =>
          '(found, col') ← visit node_id col;
          if found : bool then Ok false else visit_all visit rest col'
      | _ => visit_all visit rest col
      end
  end.

Section Analyzer.

(** The iteration order of a Python set built by inserting the given keys
    in the given order: the distinct keys, in some order. *)
Variable set_order : list key → list key.

(** The number of calls of [has_cycle] the interpreter lets nest inside an
    outermost one: the recursion limit less the depth at which the search
    runs.  The outermost call itself always fits, since the handler has
    already returned from [json.dumps] (line 38), which nests deeper below
    the handler than that call does. *)
Variable nesting_limit : nat.

(** Lines 89-100: the vertex set and the adjacency lists. *)
Definition build_graph (nodes edges : json)
  : result (list key * gmap key (list key)) :=
  nodes_l ← py_iter nodes;
  inserted ← collect_ids nodes_l;
  let node_ids := set_order inserted in
  let graph := init_graph node_ids in
  edges_l ← py_iter edges;
  graph ← add_edges edges_l graph;
  Ok (node_ids, graph).

(** Lines 102-121: the depth-first search from every white vertex. *)
Definition search (node_ids : list key) (graph : gmap key (list key))
  : result bool :=
  let col := init_color node_ids in
  visit_all (has_cycle (S nesting_limit) graph) node_ids col.

(** Lines 88-121, the general algorithm without the guard of line 85. *)
Definition check_is_dag_general (nodes edges : json) : result bool :=
  '(node_ids, graph) ← build_graph nodes edges;
  search node_ids graph.

Definition check_is_dag_raw (nodes edges : json) : result bool :=
  if negb (truthy edges) then Ok true
  else check_is_dag_general nodes edges.

(** ** The endpoint: [parse_pipeline] *)

(** What the handler returns: the [result] dictionary, or the pair
    [({"error": str(e)}, 400)] of the [except] branch. *)
Inductive response :=
  | Analysis (num_nodes num_edges : nat) (is_dag : bool)
  | ErrorPair (e : exn) (code : Z).

(** The [if edges:] block that prints the first edge. *)
Definition print_first_edge (edges : json) : result unit :=
  if truthy edges then
    first_edge ← py_index0 edges;
    _ ← py_get first_edge "source";
    _ ← py_get first_edge "target";
    _ ← py_get first_edge "sourceHandle";
    _ ← py_get first_edge "targetHandle";
    Ok ()
  else Ok ().

(** The [try] block.  [body] is the outcome of [request.json()]: [None]
    when the body is not JSON. *)
Definition try_block (body : option json) : result (nat * nat * bool) :=
  raw_data ← from_option Ok (Raise JSONDecodeError) body;
  nodes ← py_get_default raw_data "nodes" (JList []);
  edges ← py_get_default raw_data "edges" (JList []);
  _ ← py_len nodes;
  _ ← py_len edges;
  _ ← print_first_edge edges;
  num_nodes ← py_len nodes;
  num_edges ← py_len edges;
  is_dag ← check_is_dag_raw nodes edges;
  Ok (num_nodes, num_edges, is_dag).

Definition parse_pipeline (body : option json) : response :=
  match try_block body with
  | Ok (num_nodes, num_edges, is_dag) => Analysis num_nodes num_edges is_dag
  | Raise e => ErrorPair e 400
  end.

End Analyzer.

(** ** The search, seen from the graph

    The notions the traversal is specified with: the edge relation of an
    adjacency map, the invariant relating the colours to it, and the
    number of white vertices, which bounds the recursion. *)

Definition successor (graph : gmap key (list key)) (u v : key) : Prop :=
  ∃ vs, graph !! u = Some vs ∧ v ∈ vs.

Definition cyclic (graph : gmap key (list key)) : Prop :=
  ∃ u, tc (successor graph) u u.

(** Every successor is itself a vertex. *)
Definition closed_graph (graph : gmap key (list key)) : Prop :=
  ∀ u v, successor graph u v → is_Some (graph !! v).

Definition white_count (node_ids : list key) (col : gmap key color) : nat :=
  length (filter (λ k, col !! k = Some WHITE) node_ids).

Record search_inv (graph : gmap key (list key)) (col : gmap key color)
  : Prop := {
  inv_dom : ∀ k, is_Some (col !! k) ↔ is_Some (graph !! k);
  inv_black_closed : ∀ u v,
    col !! u = Some BLACK → successor graph u v → col !! v = Some BLACK;
  inv_black_acyclic : ∀ u,
    col !! u = Some BLACK → ¬ tc (successor graph) u u
}.

(** How the colours move between two points of the search: black stays
    black and nothing becomes white. *)
Definition advances (col col' : gmap key color) : Prop :=
  (∀ k, col !! k = Some BLACK → col' !! k = Some BLACK) ∧
  (∀ k, col' !! k = Some WHITE → col !! k = Some WHITE).

(** What a call [has_cycle(node)] that returns has achieved: a cycle
    exists when it reports one; otherwise the invariant holds again, its
    vertex is black and the gray vertices are those of before. *)
Definition visit_post (graph : gmap key (list key)) (node : key)
    (col : gmap key color) (found : bool) (col' : gmap key color) : Prop :=
  if found then cyclic graph
  else search_inv graph col' ∧ advances col col' ∧
       col' !! node = Some BLACK ∧
       (∀ k, col' !! k = Some GRAY ↔ col !! k = Some GRAY).

(** The contract of a call [has_cycle(node)] with [depth] frames left, on a
    white [node] whose gray ancestors all reach it: it returns with
    [visit_post], or raises [RecursionError], and that only when more than
    [depth] vertices are white and a walk of [depth] edges leaves
    [node]. *)
Definition visit_ok (graph : gmap key (list key)) (node_ids : list key)
    (depth : nat)
    (visit : key → gmap key color → result (bool * gmap key color)) : Prop :=
  ∀ node col,
    search_inv graph col →
    col !! node = Some WHITE →
    (∀ x, col !! x = Some GRAY → rtc (successor graph) x node) →
    match visit node col with
    | Ok (found, col') => visit_post graph node col found col'
    | Raise x =>
        x = RecursionError ∧ depth < white_count node_ids col ∧
        ∃ v, nsteps (successor graph) depth node v
    end.

(** ** The graph a request describes

    The input of the analyzer, as the endpoint's clients send it: two lists
    of records (JSON objects).  The definitions below read the graph off
    the records without reference to the algorithm. *)

Definition records (rs : list (gmap string json)) : json :=
  JList (JDict <$> rs).

(** The value stored under a field, [None] (JSON null) when absent. *)
Definition field (r : gmap string json) (k : string) : json :=
  default JNull (r !! k).

(** [k] is a vertex: the truthy id of some node record. *)
Definition valid_id (nodes : list (gmap string json)) (k : key) : Prop :=
  ∃ n, n ∈ nodes ∧ truthy (field n "id") = true ∧
       key_of (field n "id") = Some k.

(** [(u, v)] is an edge: some edge record has truthy source [u] and target
    [v], both vertices. *)
Definition valid_edge (nodes edges : list (gmap string json)) (u v : key)
  : Prop :=
  ∃ e, e ∈ edges ∧
       truthy (field e "source") = true ∧ truthy (field e "target") = true ∧
       key_of (field e "source") = Some u ∧ key_of (field e "target") = Some v ∧
       valid_id nodes u ∧ valid_id nodes v.

Definition has_directed_cycle (nodes edges : list (gmap string json)) : Prop :=
  ∃ u, tc (valid_edge nodes edges) u u.

(** The keys line 90 inserts into the set, in the order of the node
    list. *)
Definition inserted_ids (nodes : list (gmap string json)) : list key :=
  omap (λ n, if truthy (field n "id") then key_of (field n "id") else None)
       nodes.

(** The records on which no step of the analyzer hashes a list or a dict:
    a truthy id is hashable; an edge with truthy source and target has a
    hashable source and, when the source is a vertex, a hashable target. *)
Definition hashable_ids (nodes : list (gmap string json)) : Prop :=
  ∀ n, n ∈ nodes → truthy (field n "id") = true →
       is_Some (key_of (field n "id")).

Definition hashable_edge (nodes : list (gmap string json))
    (e : gmap string json) : Prop :=
  truthy (field e "source") = true → truthy (field e "target") = true →
  ∃ u, key_of (field e "source") = Some u ∧
       (valid_id nodes u → is_Some (key_of (field e "target"))).

Definition well_keyed (nodes edges : list (gmap string json)) : Prop :=
  hashable_ids nodes ∧ ∀ e, e ∈ edges → hashable_edge nodes e.

(** What a [RecursionError] of the search implies about the request: more
    vertices than the frames [has_cycle] has, and a walk of that many valid
    edges. *)
Definition too_deep (set_order : list key → list key) (nesting_limit : nat)
    (nodes edges : list (gmap string json)) : Prop :=
  S nesting_limit < length (set_order (inserted_ids nodes)) ∧
  ∃ u v, nsteps (valid_edge nodes edges) (S nesting_limit) u v.

(** The simpler sufficient condition: every truthy id, source and target
    is a string, a number or a boolean. *)
Definition scalar_fields (nodes edges : list (gmap string json)) : Prop :=
  (∀ n, n ∈ nodes → truthy (field n "id") = true →
        is_Some (key_of (field n "id"))) ∧
  (∀ e, e ∈ edges →
        (truthy (field e "source") = true →
         is_Some (key_of (field e "source"))) ∧
        (truthy (field e "target") = true →
         is_Some (key_of (field e "target")))).

(** What the analyzer reads of a list of records: the ids of the node
    records, the (source, target) pairs of the edge records. *)
Definition has_id (nodes : list (gmap string json)) (i : json) : Prop :=
  ∃ n, n ∈ nodes ∧ field n "id" = i.

Definition has_endpoints (edges : list (gmap string json)) (s t : json)
  : Prop :=
  ∃ e, e ∈ edges ∧ field e "source" = s ∧ field e "target" = t.

(** ** Sample requests *)

Definition node (id : json) : gmap string json := {[ "id" := id ]}.

Definition edge (source target : json) : gmap string json :=
  <["source" := source]> {[ "target" := target ]}.

(** The decoded body [{"nodes": ..., "edges": ...}]. *)
Definition request (nodes edges : json) : option json :=
  Some (JDict (<["nodes" := nodes]> {[ "edges" := edges ]})).


Definition node_a : gmap string json := node (JStr "a").
Definition node_b : gmap string json := node (JStr "b").
Definition edge_ab : gmap string json := edge (JStr "a") (JStr "b").
Definition edge_aa : gmap string json := edge (JStr "a") (JStr "a").


(** Records with an array where an identifier is expected. *)
Definition node_list_id : gmap string json := node (JList [JInt 1]).
Definition edge_list_source : gmap string json :=
  edge (JList [JInt 1]) (JStr "a").

(** ** Notions for the further properties *)

(** The only colour changes between [col] and [col']: white vertices
    turned gray or black. *)
Definition recolours (col col' : gmap key color) : Prop :=
  ∀ k, col' !! k = col !! k ∨
       (col !! k = Some WHITE ∧
        (col' !! k = Some GRAY ∨ col' !! k = Some BLACK)).

(** The pair of keys of an edge record that passes the truthiness test of
    line 99, when both fields are hashable. *)
Definition edge_keys (e : gmap string json) : option (key * key) :=
  if truthy (field e "source") && truthy (field e "target") then
    s ← key_of (field e "source");
    t ← key_of (field e "target");
    Some (s, t)
  else None.

(** The targets, in input order and with repetitions, of the edge records
    from [u] to a key of [node_ids]. *)
Definition targets (node_ids : list key) (edges : list (gmap string json))
    (u : key) : list key :=
  omap (λ e, match edge_keys e with
             | Some (s, t) =>
                 if decide (s = u ∧ t ∈ node_ids) then Some t else None
             | None => None
             end) edges.

(** An edge record the loop of lines 96-100 leaves out without hashing a
    list or a dict: a falsy source or target, a hashable source that is no
    vertex, or hashable endpoints the second of which is no vertex. *)
Definition dropped_edge (nodes : list (gmap string json))
    (e : gmap string json) : Prop :=
  truthy (field e "source") = false ∨
  truthy (field e "target") = false ∨
  (∃ u, key_of (field e "source") = Some u ∧ ¬ valid_id nodes u) ∨
  (∃ u v, key_of (field e "source") = Some u ∧
          key_of (field e "target") = Some v ∧ ¬ valid_id nodes v).

(** The adjacency map of the request with nodes "a", "b" and the edge from
    "a" to "b". *)
Definition graph_ab : gmap key (list key) :=
  <[KStr "a" := [KStr "b"]]> (<[KStr "b" := []]> ∅).

(** A recursion depth that leaves room for the sample requests. *)
Definition roomy : nat := 100.

Definition node_c : gmap string json := node (JStr "c").
Definition edge_bc : gmap string json := edge (JStr "b") (JStr "c").
Definition edge_ac : gmap string json := edge (JStr "a") (JStr "c").

(** A ranking that puts "b" after every other key. *)
Definition rank_b_last (k : key) : nat :=
  match k with
  | KStr "b" => 1
  | _ => 0
  end.




(** * Part II: properties *)

(** ** Counting white vertices *)

Lemma white_count_le_length node_ids col :
  white_count node_ids col ≤ length node_ids.
Proof. unfold white_count. apply length_filter. Qed.

Lemma white_count_mono node_ids col col' :
  (∀ k, col' !! k = Some WHITE → col !! k = Some WHITE) →
  white_count node_ids col' ≤ white_count node_ids col.
Proof.
  intros Hsub. unfold white_count.
  induction node_ids as [|k ks IH]; [done|].
  rewrite !filter_cons.
  destruct (decide (col' !! k = Some WHITE)) as [Hk|Hk].
  - rewrite decide_True by auto. simpl. lia.
  - destruct (decide (col !! k = Some WHITE)); simpl; lia.
Qed.

Lemma white_count_paint node_ids col node c :
  node ∈ node_ids →
  col !! node = Some WHITE →
  c ≠ WHITE →
  white_count node_ids (<[node := c]> col) < white_count node_ids col.
Proof.
  intros Hin Hw Hc. unfold white_count.
  induction node_ids as [|k ks IH]; [by apply elem_of_nil in Hin|].
  assert (Hle : length (filter (λ k, <[node := c]> col !! k = Some WHITE) ks)
                ≤ length (filter (λ k, col !! k = Some WHITE) ks)).
  { apply (white_count_mono ks). intros j.
    destruct (decide (node = j)) as [->|Hne].
    - rewrite lookup_insert_eq. congruence.
    - by rewrite lookup_insert_ne. }
  rewrite !filter_cons.
  destruct (decide (node = k)) as [->|Hne].
  - rewrite lookup_insert_eq.
    rewrite decide_False by congruence. rewrite decide_True by done.
    simpl. lia.
  - rewrite lookup_insert_ne by done.
    apply elem_of_cons in Hin as [?|Hin]; [done|].
    specialize (IH Hin).
    destruct (decide (col !! k = Some WHITE)); simpl; lia.
Qed.

(** ** Maps built by a loop of insertions *)

Lemma foldl_insert_lookup {V} (x : V) (ids : list key) (m : gmap key V) k :
  foldl (λ m i, <[i := x]> m) m ids !! k
  = if decide (k ∈ ids) then Some x else m !! k.
Proof.
  revert m. induction ids as [|i ids IH]; intros m; simpl.
  - destruct (decide (k ∈ [])) as [Hin|]; [by apply elem_of_nil in Hin|done].
  - rewrite IH. destruct (decide (k ∈ ids)) as [Hin|Hnin].
    + rewrite decide_True; [done|by right].
    + destruct (decide (i = k)) as [->|Hne].
      * rewrite lookup_insert_eq. rewrite decide_True; [done|by left].
      * rewrite lookup_insert_ne by done.
        rewrite decide_False; [done|].
        intros [?|?]%elem_of_cons; congruence.
Qed.

(** ** The depth-first search on a closed graph *)

Section Search.

Variable graph : gmap key (list key).
Variable node_ids : list key.
Hypothesis graph_closed : closed_graph graph.
Hypothesis node_ids_dom : ∀ k, k ∈ node_ids ↔ is_Some (graph !! k).

Lemma black_closed_rtc col u v :
  search_inv graph col →
  col !! u = Some BLACK →
  rtc (successor graph) u v →
  col !! v = Some BLACK.
Proof.
  intros Hinv Hu Hpath. induction Hpath as [|x y z Hxy _ IH]; [done|].
  apply IH. by eapply inv_black_closed.
Qed.

(** Painting a white vertex gray keeps the invariant. *)
Lemma search_inv_gray col node :
  search_inv graph col →
  col !! node = Some WHITE →
  search_inv graph (<[node := GRAY]> col).
Proof.
  intros [Hdom Hcl Hac] Hw. split.
  - intros k. destruct (decide (node = k)) as [->|Hne].
    + rewrite lookup_insert_eq. rewrite <- Hdom, Hw. split; eauto.
    + by rewrite lookup_insert_ne.
  - intros u v Hu Huv.
    destruct (decide (node = u)) as [->|Hne].
    { by rewrite lookup_insert_eq in Hu. }
    rewrite lookup_insert_ne in Hu by done.
    specialize (Hcl u v Hu Huv).
    rewrite lookup_insert_ne; [done|]. intros ->. congruence.
  - intros u Hu.
    destruct (decide (node = u)) as [->|Hne].
    { by rewrite lookup_insert_eq in Hu. }
    rewrite lookup_insert_ne in Hu by done. by apply Hac.
Qed.

(** Painting a gray vertex black keeps the invariant once all its
    successors are black. *)
Lemma search_inv_black col node :
  search_inv graph col →
  col !! node = Some GRAY →
  (∀ v, successor graph node v → col !! v = Some BLACK) →
  search_inv graph (<[node := BLACK]> col).
Proof.
  intros Hinv Hg Hsucc. pose proof Hinv as [Hdom Hcl Hac]. split.
  - intros k. destruct (decide (node = k)) as [->|Hne].
    + rewrite lookup_insert_eq. rewrite <- Hdom, Hg. split; eauto.
    + by rewrite lookup_insert_ne.
  - intros u v Hu Huv.
    assert (col !! v = Some BLACK) as Hv.
    { destruct (decide (node = u)) as [->|Hne]; [by apply Hsucc|].
      rewrite lookup_insert_ne in Hu by done. by eapply Hcl. }
    rewrite lookup_insert_ne; [done|]. intros ->. congruence.
  - intros u Hu Hcyc.
    destruct (decide (node = u)) as [->|Hne].
    + assert (∃ v, successor graph u v ∧ rtc (successor graph) v u)
        as (v & Huv & Hvu).
      { inversion Hcyc; subst; [by eexists; split|].
        eexists; split; [done|]. by apply tc_rtc. }
      pose proof (black_closed_rtc col v u Hinv (Hsucc v Huv) Hvu).
      congruence.
    + rewrite lookup_insert_ne in Hu by done. by eapply Hac.
Qed.

(** The neighbour loop, given a recursive call that meets its contract. *)
Lemma scan_ok depth visit node all :
  visit_ok graph node_ids depth visit →
  graph !! node = Some all →
  ∀ rest col,
    rest ⊆ all →
    search_inv graph col →
    col !! node = Some GRAY →
    (∀ x, col !! x = Some GRAY → rtc (successor graph) x node) →
    (∀ v, v ∈ all → v ∈ rest ∨ col !! v = Some BLACK) →
    match scan visit node rest col with
    | Ok (found, col') =>
        if found : bool then cyclic graph
        else search_inv graph col' ∧ advances col col' ∧
             col' !! node = Some BLACK ∧
             (∀ k, col' !! k = Some GRAY ↔ col !! k = Some GRAY ∧ k ≠ node)
    | Raise x =>
        x = RecursionError ∧ depth < white_count node_ids col ∧
        ∃ v, nsteps (successor graph) (S depth) node v
    end.
Proof.
  intros Hvisit Hall rest.
  induction rest as [|n rest IH]; intros col Hsub Hinv Hnode Hgray Hdone.
  - simpl. split; [|split; [|split]].
    + apply search_inv_black; [done..|].
      intros v (vs & Hvs & Hv). rewrite Hall in Hvs. injection Hvs as <-.
      destruct (Hdone v Hv) as [Hnil|?]; [by apply elem_of_nil in Hnil|done].
    + split; intros k Hk.
      * rewrite lookup_insert_ne; [done|]. intros ->. congruence.
      * destruct (decide (node = k)) as [->|Hne].
        -- by rewrite lookup_insert_eq in Hk.
        -- by rewrite lookup_insert_ne in Hk.
    + apply lookup_insert_eq.
    + intros k. destruct (decide (node = k)) as [->|Hne].
      * rewrite lookup_insert_eq. split; [done|]. by intros [_ ?].
      * rewrite lookup_insert_ne by done. split; [by split|by intros [? _]].
  - assert (Hn : successor graph node n).
    { exists all. split; [done|]. apply Hsub. by left. }
    assert (Hrest : rest ⊆ all).
    { intros x Hx. apply Hsub. by right. }
    destruct (proj2 (inv_dom _ _ Hinv n) (graph_closed _ _ Hn)) as [c Hc].
    simpl. unfold lookup_key. rewrite Hc. simpl. destruct c.
    + (* white: recurse *)
      pose proof (Hvisit n col Hinv Hc) as Hcall.
      destruct (visit n col) as [[found col1]|ex]; simpl.
      * destruct found.
        { apply Hcall. intros x Hx. eapply rtc_r; [by apply Hgray|done]. }
        destruct Hcall as (Hinv1 & [Hblk Hwht] & Hn1 & Hg1).
        { intros x Hx. eapply rtc_r; [by apply Hgray|done]. }
        specialize (IH col1 Hrest Hinv1).
        destruct (scan visit node rest col1) as [[found col2]|ex].
        -- destruct found.
           { apply IH; [by apply Hg1| |].
             - intros x Hx. apply Hgray. by apply Hg1.
             - intros v Hv. destruct (Hdone v Hv) as [Hin|Hb]; [|by auto].
               apply elem_of_cons in Hin as [->|Hin]; by auto. }
           destruct IH as (Hinv2 & [Hblk2 Hwht2] & Hn2 & Hg2).
           { by apply Hg1. }
           { intros x Hx. apply Hgray. by apply Hg1. }
           { intros v Hv. destruct (Hdone v Hv) as [Hin|Hb]; [|by auto].
             apply elem_of_cons in Hin as [->|Hin]; by auto. }
           split; [done|]. split; [by split; auto|]. split; [done|].
           intros k. rewrite Hg2, Hg1. done.
        -- destruct IH as (-> & Hlt & Hwalk).
           { by apply Hg1. }
           { intros x Hx. apply Hgray. by apply Hg1. }
           { intros v Hv. destruct (Hdone v Hv) as [Hin|Hb]; [|by auto].
             apply elem_of_cons in Hin as [->|Hin]; by auto. }
           split; [done|]. split; [|done].
           eapply Nat.lt_le_trans; [exact Hlt|]. by apply white_count_mono.
      * destruct Hcall as (-> & Hlt & v & Hwalk).
        { intros y Hy. eapply rtc_r; [by apply Hgray|done]. }
        split; [done|]. split; [done|]. exists v. by eapply nsteps_l.
    + (* gray: a back edge *)
      exists n. eapply tc_rtc_l; [by apply Hgray|]. by apply tc_once.
    + (* black: skip *)
      apply IH; try done.
      intros v Hv. destruct (Hdone v Hv) as [Hin|Hb]; [|by auto].
      apply elem_of_cons in Hin as [->|Hin]; by auto.
Qed.

(** [has_cycle] meets its contract at every depth. *)
Lemma has_cycle_ok depth :
  visit_ok graph node_ids depth (has_cycle depth graph).
Proof.
  induction depth as [|depth IH]; intros node col Hinv Hw Hgray.
  all: assert (node ∈ node_ids) as Hin by (apply node_ids_dom, Hinv; eauto).
  all: pose proof (white_count_paint node_ids col node GRAY Hin Hw
                     ltac:(done)) as Hlt.
  { simpl. split; [done|]. split; [lia|]. exists node. constructor. }
  assert (is_Some (graph !! node)) as [all Hall].
  { apply (inv_dom _ _ Hinv). eauto. }
  simpl. unfold lookup_key. rewrite Hall. simpl.
  pose proof (scan_ok depth (has_cycle depth graph) node all IH Hall all
                (<[node := GRAY]> col)) as Hscan.
  destruct (scan _ node all _) as [[found col']|ex].
  - destruct found.
    + apply Hscan; [done|by apply search_inv_gray|apply lookup_insert_eq| |auto].
      intros x. destruct (decide (node = x)) as [->|Hne]; [done|].
      rewrite lookup_insert_ne by done. apply Hgray.
    + destruct Hscan as (Hinv' & [Hblk Hwht] & Hn & Hg);
        [done|by apply search_inv_gray|apply lookup_insert_eq| |auto|].
      { intros x. destruct (decide (node = x)) as [->|Hne]; [done|].
        rewrite lookup_insert_ne by done. apply Hgray. }
      split; [done|]. split; [|split; [done|]].
      * split; intros k Hk.
        -- apply Hblk. rewrite lookup_insert_ne; [done|]. intros ->. congruence.
        -- specialize (Hwht k Hk).
           destruct (decide (node = k)) as [->|Hne].
           ++ by rewrite lookup_insert_eq in Hwht.
           ++ by rewrite lookup_insert_ne in Hwht.
      * intros k. rewrite Hg. destruct (decide (node = k)) as [->|Hne].
        -- rewrite lookup_insert_eq. split; [by intros [_ ?]|]. congruence.
        -- rewrite lookup_insert_ne by done.
           split; [by intros [? _]|]. intros ?. split; [done|]. congruence.
  - destruct Hscan as (-> & Hlt' & Hwalk);
      [done|by apply search_inv_gray|apply lookup_insert_eq| |auto|].
    { intros x. destruct (decide (node = x)) as [->|Hne]; [done|].
      rewrite lookup_insert_ne by done. apply Hgray. }
    split; [done|]. split; [lia|done].
Qed.

(** The outer loop: started with no gray vertex, it answers whether the
    graph is acyclic, unless the recursion runs too deep. *)
Lemma visit_all_ok depth visit :
  visit_ok graph node_ids depth visit →
  ∀ rest col,
    rest ⊆ node_ids →
    search_inv graph col →
    (∀ x, col !! x ≠ Some GRAY) →
    (∀ k, k ∈ node_ids → k ∈ rest ∨ col !! k = Some BLACK) →
    match visit_all visit rest col with
    | Ok b => b = true ↔ ¬ cyclic graph
    | Raise x =>
        x = RecursionError ∧ depth < length node_ids ∧
        ∃ u v, nsteps (successor graph) depth u v
    end.
Proof.
  intros Hvisit rest.
  induction rest as [|n rest IH]; intros col Hsub Hinv Hnogray Hdone.
  - simpl. split; [|done]. intros _ [u Hu].
    assert (is_Some (graph !! u)) as Hdom.
    { inversion Hu as [? ? (vs & ? & _)|? ? ? (vs & ? & _)]; eauto. }
    apply node_ids_dom in Hdom.
    destruct (Hdone u Hdom) as [Hnil|Hb]; [by apply elem_of_nil in Hnil|].
    by apply (inv_black_acyclic _ _ Hinv u).
  - assert (Hrest : rest ⊆ node_ids).
    { intros x Hx. apply Hsub. by right. }
    assert (is_Some (col !! n)) as [c Hc].
    { apply (inv_dom _ _ Hinv), node_ids_dom, Hsub. by left. }
    assert (Hskip : col !! n = Some BLACK →
      match visit_all visit rest col with
      | Ok b => b = true ↔ ¬ cyclic graph
      | Raise x =>
          x = RecursionError ∧ depth < length node_ids ∧
          ∃ u v, nsteps (successor graph) depth u v
      end).
    { intros Hb. apply IH; try done.
      intros k Hk. destruct (Hdone k Hk) as [Hin|?]; [|by auto].
      apply elem_of_cons in Hin as [->|Hin]; by auto. }
    simpl. unfold lookup_key. rewrite Hc. simpl. destruct c.
    + pose proof (Hvisit n col Hinv Hc) as Hcall.
      destruct (visit n col) as [[found col1]|ex]; simpl.
      * destruct found.
        { split; [done|]. intros Hn. destruct Hn. apply Hcall.
          intros x Hx. by destruct (Hnogray x). }
        destruct Hcall as (Hinv1 & [Hblk Hwht] & Hn1 & Hg1).
        { intros x Hx. by destruct (Hnogray x). }
        apply IH; try done.
        -- intros x Hx. apply Hg1 in Hx. by destruct (Hnogray x).
        -- intros k Hk. destruct (Hdone k Hk) as [Hin|?]; [|by auto].
           apply elem_of_cons in Hin as [->|Hin]; by auto.
      * destruct Hcall as (-> & Hlt & v & Hwalk).
        { intros y Hy. by destruct (Hnogray y). }
        split; [done|]. split; [|by eauto].
        eapply Nat.lt_le_trans; [exact Hlt|]. apply white_count_le_length.
    + by destruct (Hnogray n).
    + by apply Hskip.
Qed.

Lemma init_color_lookup ids k :
  init_color ids !! k = if decide (k ∈ ids) then Some WHITE else None.
Proof.
  unfold init_color. rewrite foldl_insert_lookup.
  by destruct (decide (k ∈ ids)).
Qed.

(** The all-white colouring satisfies the invariant. *)
Lemma init_color_inv : search_inv graph (init_color node_ids).
Proof.
  split.
  - intros k. rewrite init_color_lookup, <- node_ids_dom.
    destruct (decide (k ∈ node_ids)) as [Hin|Hnin].
    + split; [done|eauto].
    + split; [by intros [? ?]|done].
  - intros u v Hu. rewrite init_color_lookup in Hu.
    by destruct (decide (u ∈ node_ids)).
  - intros u Hu. rewrite init_color_lookup in Hu.
    by destruct (decide (u ∈ node_ids)).
Qed.

(** The search on a closed graph: when it returns, it returns [true]
    exactly when the graph has no cycle; it fails only with
    [RecursionError], and that only when the graph has more than
    [S nesting_limit] vertices and a walk of [S nesting_limit] edges. *)
Lemma search_ok nesting_limit :
  match search nesting_limit node_ids graph with
  | Ok b => b = true ↔ ¬ cyclic graph
  | Raise x =>
      x = RecursionError ∧ S nesting_limit < length node_ids ∧
      ∃ u v, nsteps (successor graph) (S nesting_limit) u v
  end.
Proof.
  unfold search.
  apply (visit_all_ok _ _ (has_cycle_ok (S nesting_limit))).
  - done.
  - apply init_color_inv.
  - intros x. rewrite init_color_lookup. by destruct (decide (x ∈ node_ids)).
  - auto.
Qed.

End Search.

(** ** From the records to the adjacency map *)

Lemma init_graph_lookup ids k :
  init_graph ids !! k = if decide (k ∈ ids) then Some [] else None.
Proof.
  unfold init_graph. rewrite foldl_insert_lookup.
  by destruct (decide (k ∈ ids)).
Qed.

Lemma collect_ids_record r rest :
  collect_ids (JDict r :: rest) =
  if truthy (field r "id") then
    k ← hash_key (field r "id"); ks ← collect_ids rest; Ok (k :: ks)
  else collect_ids rest.
Proof. done. Qed.

(** The set comprehension over a list of records. *)
Lemma collect_ids_records nodes :
  match collect_ids (JDict <$> nodes) with
  | Ok l => hashable_ids nodes ∧ ∀ k, k ∈ l ↔ valid_id nodes k
  | Raise e => e = TypeError ∧ ¬ hashable_ids nodes
  end.
Proof.
  induction nodes as [|n nodes IH]; [simpl|rewrite fmap_cons, collect_ids_record].
  - split.
    + intros n Hn. by apply elem_of_nil in Hn.
    + intros k. split; [by intros ?%elem_of_nil|].
      intros (n & Hn & _). by apply elem_of_nil in Hn.
  - destruct (truthy (field n "id")) eqn:Ht.
    + unfold hash_key.
      destruct (key_of (field n "id")) as [kn|] eqn:Hk; simpl.
      * destruct (collect_ids (JDict <$> nodes)) as [l|e]; simpl.
        -- destruct IH as [Hh Hl]. split.
           ++ intros m [->|Hm]%elem_of_cons ?; [by rewrite Hk|by apply Hh].
           ++ intros k. rewrite elem_of_cons, Hl. split.
              ** intros [->|(m & Hm & ?)].
                 --- exists n. split; [by left|done].
                 --- exists m. split; [by right|done].
              ** intros (m & [->|Hm]%elem_of_cons & Hmt & Hmk).
                 --- left. congruence.
                 --- right. by exists m.
        -- destruct IH as [-> Hh]. split; [done|].
           intros Hall. apply Hh. intros m Hm. apply Hall. by right.
      * split; [done|]. intros Hall.
        destruct (Hall n) as [? ?]; [by left|done|congruence].
    + destruct (collect_ids (JDict <$> nodes)) as [l|e]; simpl.
      * destruct IH as [Hh Hl]. split.
        -- intros m [->|Hm]%elem_of_cons ?; [congruence|by apply Hh].
        -- intros k. rewrite Hl. split.
           ++ intros (m & Hm & ?). exists m. split; [by right|done].
           ++ intros (m & [->|Hm]%elem_of_cons & Hmt & Hmk); [congruence|].
              by exists m.
      * destruct IH as [-> Hh]. split; [done|].
        intros Hall. apply Hh. intros m Hm. apply Hall. by right.
Qed.

Lemma add_edge_record graph e :
  add_edge graph (JDict e) =
  if truthy (field e "source") then
    if truthy (field e "target") then
      s ← hash_key (field e "source");
      if decide (is_Some (graph !! s)) then
        t ← hash_key (field e "target");
        if decide (is_Some (graph !! t)) then
          succs ← lookup_key graph s;
          Ok (<[s := succs ++ [t]]> graph)
        else Ok graph
      else Ok graph
    else Ok graph
  else Ok graph.
Proof. done. Qed.

Lemma valid_edge_one nodes e u v :
  valid_edge nodes [e] u v ↔
  truthy (field e "source") = true ∧ truthy (field e "target") = true ∧
  key_of (field e "source") = Some u ∧ key_of (field e "target") = Some v ∧
  valid_id nodes u ∧ valid_id nodes v.
Proof.
  split.
  - intros (e' & ->%list_elem_of_singleton & H). exact H.
  - intros H. exists e. split; [by apply list_elem_of_singleton|done].
Qed.

Lemma valid_edge_cons nodes e edges u v :
  valid_edge nodes (e :: edges) u v ↔
  valid_edge nodes [e] u v ∨ valid_edge nodes edges u v.
Proof.
  split.
  - intros (e' & [->|Hin]%elem_of_cons & H).
    + left. apply valid_edge_one, H.
    + right. by exists e'.
  - intros [H%valid_edge_one|(e' & Hin & H)].
    + exists e. split; [by left|done].
    + exists e'. split; [by right|done].
Qed.

(** Appending [t] to the successors of [s] adds exactly the edge
    [(s, t)]. *)
Lemma successor_append graph s succs t u v :
  graph !! s = Some succs →
  successor (<[s := succs ++ [t]]> graph) u v ↔
  successor graph u v ∨ (u = s ∧ v = t).
Proof.
  intros Hs. unfold successor. destruct (decide (s = u)) as [->|Hne].
  - rewrite lookup_insert_eq. split.
    + intros (vs & [= <-] & [Hv|Hv%list_elem_of_singleton]%elem_of_app).
      * left. by exists succs.
      * by right.
    + intros [(vs & Hvs & Hv)|[_ ->]].
      * exists (succs ++ [t]). split; [done|].
        apply elem_of_app. left. congruence.
      * exists (succs ++ [t]). split; [done|].
        apply elem_of_app. right. by apply list_elem_of_singleton.
  - rewrite lookup_insert_ne by done. split; [by left|].
    intros [?|[-> _]]; done.
Qed.

(** One iteration of the edge loop, on a record. *)
Lemma add_edge_ok nodes graph e :
  (∀ k, is_Some (graph !! k) ↔ valid_id nodes k) →
  match add_edge graph (JDict e) with
  | Ok graph' =>
      hashable_edge nodes e ∧
      (∀ k, is_Some (graph' !! k) ↔ valid_id nodes k) ∧
      (∀ u v, successor graph' u v ↔
              successor graph u v ∨ valid_edge nodes [e] u v)
  | Raise x => x = TypeError ∧ ¬ hashable_edge nodes e
  end.
Proof.
  intros Hdom. rewrite add_edge_record.
  assert (Hnone : ∀ P : Prop,
    (∀ u v, ¬ valid_edge nodes [e] u v) → hashable_edge nodes e →
    hashable_edge nodes e ∧
    (∀ k, is_Some (graph !! k) ↔ valid_id nodes k) ∧
    (∀ u v, successor graph u v ↔
            successor graph u v ∨ valid_edge nodes [e] u v)).
  { intros _ Hno Hh. split; [done|]. split; [done|].
    intros u v. split; [by left|]. intros [?|?]; [done|]. by destruct (Hno u v). }
  destruct (truthy (field e "source")) eqn:Hts; cycle 1.
  { apply (Hnone True).
    - intros u v (? & _)%valid_edge_one. congruence.
    - intros ?. congruence. }
  destruct (truthy (field e "target")) eqn:Htt; cycle 1.
  { apply (Hnone True).
    - intros u v (_ & ? & _)%valid_edge_one. congruence.
    - intros _ ?. congruence. }
  unfold hash_key.
  destruct (key_of (field e "source")) as [s|] eqn:Hks; simpl; cycle 1.
  { split; [done|]. intros Hh. destruct (Hh Hts Htt) as (? & ? & _). congruence. }
  destruct (decide (is_Some (graph !! s))) as [Hs|Hs]; cycle 1.
  { apply (Hnone True).
    - intros u v (_ & _ & Hu & _ & Hvu & _)%valid_edge_one.
      apply Hs, Hdom. congruence.
    - intros _ _. exists s. split; [done|]. intros Hv. by apply Hdom in Hv. }
  destruct (key_of (field e "target")) as [t|] eqn:Hkt; simpl; cycle 1.
  { split; [done|]. intros Hh.
    destruct (Hh Hts Htt) as (u & Hu & Ht).
    assert (u = s) as -> by congruence.
    destruct Ht as [? ?]; [by apply Hdom|congruence]. }
  assert (Hh : hashable_edge nodes e).
  { intros _ _. exists s. split; [done|]. by rewrite Hkt. }
  destruct (decide (is_Some (graph !! t))) as [Ht|Ht]; cycle 1.
  { apply (Hnone True); [|done].
    intros u v (_ & _ & _ & Hv & _ & Hvv)%valid_edge_one.
    apply Ht, Hdom. congruence. }
  destruct Hs as [succs Hs]. unfold lookup_key. rewrite Hs. simpl.
  split; [done|]. split.
  - intros k. rewrite <- Hdom, lookup_insert_is_Some. split.
    + intros [<-|[_ ?]]; eauto.
    + intros ?. destruct (decide (s = k)); auto.
  - intros u v. rewrite (successor_append _ _ _ _ _ _ Hs), valid_edge_one.
    rewrite Hks, Hkt. split.
    + intros [?|[-> ->]]; [by left|]. right.
      repeat split; try done; apply Hdom; eauto.
    + intros [?|(_ & _ & [= ->] & [= ->] & _)]; [by left|by right].
Qed.

Lemma add_edges_record graph e rest :
  add_edges (JDict e :: rest) graph =
  graph' ← add_edge graph (JDict e); add_edges rest graph'.
Proof. done. Qed.

(** The whole edge loop, on a list of records. *)
Lemma add_edges_ok nodes edges : ∀ graph,
  (∀ k, is_Some (graph !! k) ↔ valid_id nodes k) →
  match add_edges (JDict <$> edges) graph with
  | Ok graph' =>
      (∀ e, e ∈ edges → hashable_edge nodes e) ∧
      (∀ k, is_Some (graph' !! k) ↔ valid_id nodes k) ∧
      (∀ u v, successor graph' u v ↔
              successor graph u v ∨ valid_edge nodes edges u v)
  | Raise x => x = TypeError ∧ ¬ (∀ e, e ∈ edges → hashable_edge nodes e)
  end.
Proof.
  induction edges as [|e edges IH]; intros graph Hdom.
  - simpl. split; [by intros e ?%elem_of_nil|]. split; [done|].
    intros u v. split; [by left|].
    intros [?|(e & ?%elem_of_nil & _)]; done.
  - rewrite fmap_cons, add_edges_record.
    pose proof (add_edge_ok nodes graph e Hdom) as Hstep.
    destruct (add_edge graph (JDict e)) as [graph1|x]; simpl.
    + destruct Hstep as (Hh & Hdom1 & Hsucc1).
      specialize (IH graph1 Hdom1).
      destruct (add_edges (JDict <$> edges) graph1) as [graph2|x].
      * destruct IH as (Hhs & Hdom2 & Hsucc2). split; [|split; [done|]].
        -- intros e' [->|?]%elem_of_cons; auto.
        -- intros u v. rewrite Hsucc2, Hsucc1, (valid_edge_cons nodes e edges).
           tauto.
      * destruct IH as [-> Hn]. split; [done|].
        intros Hall. apply Hn. intros e' ?. apply Hall. by right.
    + destruct Hstep as [-> Hn]. split; [done|].
      intros Hall. apply Hn, Hall. by left.
Qed.

Lemma tc_impl {A} (R S : relation A) :
  (∀ x y, R x y → S x y) → ∀ x y, tc R x y → tc S x y.
Proof.
  intros HRS x y H. induction H as [x y H|x y z H _ IH].
  - apply tc_once. auto.
  - eapply tc_l; eauto.
Qed.

Lemma no_edges_no_cycle nodes : ¬ has_directed_cycle nodes [].
Proof.
  intros [u Hu].
  inversion Hu as [? ? (e & ?%elem_of_nil & _)|? ? ? (e & ?%elem_of_nil & _)];
    done.
Qed.

Lemma scalar_fields_well_keyed nodes edges :
  scalar_fields nodes edges → well_keyed nodes edges.
Proof.
  intros [Hn He]. split; [done|].
  intros e Hin Hs Ht. destruct (He e Hin) as [Hks Hkt].
  destruct (Hks Hs) as [u Hu]. exists u. split; [done|]. auto.
Qed.

Lemma nsteps_impl {A} (R S : relation A) n :
  (∀ x y, R x y → S x y) → ∀ x y, nsteps R n x y → nsteps S n x y.
Proof.
  intros HRS x y H. induction H as [|n x y z H _ IH]; [constructor|].
  eapply nsteps_l; eauto.
Qed.

Lemma collect_ids_inserted nodes l :
  collect_ids (JDict <$> nodes) = Ok l → l = inserted_ids nodes.
Proof.
  revert l. induction nodes as [|n nodes IH]; intros l.
  - by intros [= <-].
  - rewrite fmap_cons, collect_ids_record. unfold inserted_ids. simpl.
    destruct (truthy (field n "id")); [|apply IH].
    unfold hash_key. destruct (key_of (field n "id")) as [k|]; simpl; [|done].
    destruct (collect_ids (JDict <$> nodes)) as [ks|]; simpl; [|done].
    intros [= <-]. f_equal. by apply IH.
Qed.

Lemma length_inserted_ids nodes : length (inserted_ids nodes) ≤ length nodes.
Proof.
  unfold inserted_ids. induction nodes as [|n nodes IH]; [done|].
  cbn [omap list_omap length].
  destruct (truthy (field n "id")); [destruct (key_of (field n "id"))|];
    cbn [length]; lia.
Qed.

(** A set holds no more elements than were inserted into it. *)
Lemma length_set_order (so : list key → list key) l :
  (∀ l k, k ∈ so l ↔ k ∈ l) → (∀ l, NoDup (so l)) →
  length (so l) ≤ length l.
Proof.
  intros Hso Hnd. apply submseteq_length, NoDup_submseteq; [done|].
  intros k. by apply Hso.
Qed.

Lemma vertex_bound (so : list key → list key) nodes :
  (∀ l k, k ∈ so l ↔ k ∈ l) → (∀ l, NoDup (so l)) →
  length (so (inserted_ids nodes)) ≤ length nodes.
Proof.
  intros Hso Hnd. etrans; [by apply length_set_order|].
  apply length_inserted_ids.
Qed.

(** ** The analyzer on lists of records *)

Section Correctness.

Variable set_order : list key → list key.
Variable nesting_limit : nat.
Hypothesis set_order_elem : ∀ l k, k ∈ set_order l ↔ k ∈ l.

(** Lines 89-100 build the graph of the request, or raise [TypeError] on
    an unhashable field. *)
Lemma build_graph_ok nodes edges :
  match build_graph set_order (records nodes) (records edges) with
  | Ok (node_ids, graph) =>
      well_keyed nodes edges ∧
      (∀ k, k ∈ node_ids ↔ valid_id nodes k) ∧
      (∀ k, is_Some (graph !! k) ↔ k ∈ node_ids) ∧
      (∀ u v, successor graph u v ↔ valid_edge nodes edges u v)
  | Raise x => x = TypeError ∧ ¬ well_keyed nodes edges
  end.
Proof.
  unfold build_graph, records. cbn [py_iter mbind result_bind].
  pose proof (collect_ids_records nodes) as Hids.
  destruct (collect_ids (JDict <$> nodes)) as [inserted|x]; cycle 1.
  { destruct Hids as [-> Hn]. split; [done|]. by intros [? _]. }
  destruct Hids as [Hh Hids]. cbn [mbind result_bind].
  assert (Hdom : ∀ k, is_Some (init_graph (set_order inserted) !! k)
                      ↔ valid_id nodes k).
  { intros k. rewrite init_graph_lookup.
    destruct (decide (k ∈ set_order inserted)) as [Hin|Hnin].
    - split; [|eauto]. intros _. by apply Hids, set_order_elem.
    - split; [by intros [? ?]|]. intros Hk. by apply Hids, set_order_elem in Hk. }
  pose proof (add_edges_ok nodes edges _ Hdom) as Hedges.
  destruct (add_edges (JDict <$> edges) _) as [graph|x]; cycle 1.
  { destruct Hedges as [-> Hn]. split; [done|]. by intros [_ ?]. }
  destruct Hedges as (Hhe & Hdom' & Hsucc). cbn [mbind result_bind].
  split; [by split|]. split; [|split].
  - intros k. by rewrite set_order_elem, Hids.
  - intros k. by rewrite Hdom', set_order_elem, Hids.
  - intros u v. rewrite Hsucc. split; [|by right].
    intros [(vs & Hvs & Hv)|?]; [|done].
    rewrite init_graph_lookup in Hvs.
    destruct (decide (u ∈ set_order inserted)); [|done].
    injection Hvs as <-. by apply elem_of_nil in Hv.
Qed.

(** The vertex list the construction returns is the set of the inserted
    ids. *)
Lemma build_graph_ids nodes edges node_ids graph :
  build_graph set_order (records nodes) (records edges) = Ok (node_ids, graph) →
  node_ids = set_order (inserted_ids nodes).
Proof.
  unfold build_graph, records. cbn [py_iter mbind result_bind].
  destruct (collect_ids (JDict <$> nodes)) as [inserted|] eqn:Hc; [|done].
  cbn [mbind result_bind].
  destruct (add_edges (JDict <$> edges) _) as [graph1|]; [|done].
  cbn [mbind result_bind]. intros Heq. simplify_eq.
  by rewrite (collect_ids_inserted _ _ Hc).
Qed.

(** The general algorithm decides acyclicity of the request's graph when
    it returns; it raises [TypeError] exactly on an unhashable field, and
    [RecursionError] only on a request that is [too_deep]. *)
Lemma check_is_dag_general_ok nodes edges :
  match check_is_dag_general set_order nesting_limit
          (records nodes) (records edges) with
  | Ok b => well_keyed nodes edges ∧
            (b = true ↔ ¬ has_directed_cycle nodes edges)
  | Raise x =>
      (x = TypeError ∧ ¬ well_keyed nodes edges) ∨
      (x = RecursionError ∧ well_keyed nodes edges ∧
       too_deep set_order nesting_limit nodes edges)
  end.
Proof.
  unfold check_is_dag_general.
  pose proof (build_graph_ok nodes edges) as Hbuild.
  pose proof (build_graph_ids nodes edges) as Hid.
  destruct (build_graph _ _ _) as [[node_ids graph]|x]; [|by left].
  destruct Hbuild as (Hwk & Hids & Hdom & Hsucc). cbn [mbind result_bind].
  specialize (Hid _ _ eq_refl).
  pose proof (search_ok graph node_ids) as Hsearch.
  specialize (Hsearch
    ltac:(intros u v Huv; apply Hdom, Hids;
          by apply Hsucc in Huv as (e & _ & _ & _ & _ & _ & _ & Hv))
    ltac:(intros k; by rewrite Hdom) nesting_limit).
  destruct (search nesting_limit node_ids graph) as [b|x].
  - split; [done|]. rewrite Hsearch. unfold cyclic, has_directed_cycle.
    split; intros Hn [u Hu]; apply Hn; exists u;
      (eapply tc_impl; [|exact Hu]); intros x y; apply Hsucc.
  - destruct Hsearch as (-> & Hlt & u & v & Hwalk). right.
    split; [done|]. split; [done|]. split; [by rewrite <- Hid|].
    exists u, v. eapply nsteps_impl; [|exact Hwalk]. intros a b. apply Hsucc.
Qed.

(** The same for [check_is_dag_raw], guard included. *)
Lemma check_is_dag_raw_ok nodes edges :
  match check_is_dag_raw set_order nesting_limit
          (records nodes) (records edges) with
  | Ok b => (edges = [] ∨ well_keyed nodes edges) ∧
            (b = true ↔ ¬ has_directed_cycle nodes edges)
  | Raise x =>
      edges ≠ [] ∧
      ((x = TypeError ∧ ¬ well_keyed nodes edges) ∨
       (x = RecursionError ∧ well_keyed nodes edges ∧
        too_deep set_order nesting_limit nodes edges))
  end.
Proof.
  unfold check_is_dag_raw. destruct edges as [|e edges].
  - simpl. split; [by left|]. split; [|done].
    intros _. apply no_edges_no_cycle.
  - change (negb (truthy (records (e :: edges)))) with false. cbn iota.
    pose proof (check_is_dag_general_ok nodes (e :: edges)) as H.
    destruct (check_is_dag_general _ _ _ _) as [b|x].
    + destruct H. split; [by right|done].
    + done.
Qed.

End Correctness.

(** ** The outcome depends on the ids and endpoint pairs present *)

Lemma valid_id_has_id nodes k :
  valid_id nodes k ↔
  ∃ i, has_id nodes i ∧ truthy i = true ∧ key_of i = Some k.
Proof.
  split.
  - intros (n & Hin & Ht & Hk). exists (field n "id").
    split; [by exists n|done].
  - intros (i & (n & Hin & <-) & Ht & Hk). by exists n.
Qed.

Lemma valid_id_same nodes nodes' k :
  (∀ i, has_id nodes i ↔ has_id nodes' i) →
  valid_id nodes k ↔ valid_id nodes' k.
Proof.
  intros Hn. rewrite !valid_id_has_id.
  split; intros (i & Hi & H); exists i; (split; [by apply Hn|done]).
Qed.

Lemma valid_edge_has_endpoints nodes edges u v :
  valid_edge nodes edges u v ↔
  ∃ s t, has_endpoints edges s t ∧ truthy s = true ∧ truthy t = true ∧
         key_of s = Some u ∧ key_of t = Some v ∧
         valid_id nodes u ∧ valid_id nodes v.
Proof.
  split.
  - intros (e & Hin & H). exists (field e "source"), (field e "target").
    split; [by exists e|done].
  - intros (s & t & (e & Hin & <- & <-) & H). by exists e.
Qed.

Lemma valid_edge_same nodes nodes' edges edges' u v :
  (∀ i, has_id nodes i ↔ has_id nodes' i) →
  (∀ s t, has_endpoints edges s t ↔ has_endpoints edges' s t) →
  valid_edge nodes edges u v ↔ valid_edge nodes' edges' u v.
Proof.
  intros Hn He. rewrite !valid_edge_has_endpoints.
  pose proof (valid_id_same nodes nodes' u Hn) as Hu.
  pose proof (valid_id_same nodes nodes' v Hn) as Hv.
  split; intros (s & t & Hst & ? & ? & ? & ? & ? & ?); exists s, t;
    (split; [by apply He|]); do 4 (split; [done|]); tauto.
Qed.

Lemma has_directed_cycle_same nodes nodes' edges edges' :
  (∀ i, has_id nodes i ↔ has_id nodes' i) →
  (∀ s t, has_endpoints edges s t ↔ has_endpoints edges' s t) →
  has_directed_cycle nodes edges ↔ has_directed_cycle nodes' edges'.
Proof.
  intros Hn He. unfold has_directed_cycle.
  split; intros [u Hu]; exists u; (eapply tc_impl; [|exact Hu]);
    intros x y; by apply valid_edge_same.
Qed.

Lemma well_keyed_same nodes nodes' edges edges' :
  (∀ i, has_id nodes i ↔ has_id nodes' i) →
  (∀ s t, has_endpoints edges s t ↔ has_endpoints edges' s t) →
  well_keyed nodes edges ↔ well_keyed nodes' edges'.
Proof.
  assert (∀ nodes nodes' edges edges',
    (∀ i, has_id nodes i ↔ has_id nodes' i) →
    (∀ s t, has_endpoints edges s t ↔ has_endpoints edges' s t) →
    well_keyed nodes edges → well_keyed nodes' edges') as Himp.
  { clear. intros nodes nodes' edges edges' Hn He [Hids Heds]. split.
    - intros n' Hin'.
      destruct (proj2 (Hn (field n' "id"))) as (n & Hin & Heq);
        [by exists n'|].
      rewrite <- Heq. by apply Hids.
    - intros e' Hin' Hs Ht.
      destruct (proj2 (He (field e' "source") (field e' "target")))
        as (e & Hin & Hes & Het); [by exists e'|].
      unfold hashable_edge in Heds. specialize (Heds e Hin).
      rewrite Hes, Het in Heds. destruct (Heds Hs Ht) as (u & Hu & Hv).
      exists u. split; [done|]. intros Hval. apply Hv.
      by eapply valid_id_same. }
  intros Hn He. split; apply Himp; try done; intros; by symmetry.
Qed.




(** Two requests whose graphs have the same cycles are given the same
    answer whenever both are given one. *)
Lemma check_is_dag_raw_agree so so' limit limit' nodes nodes' edges edges' b b' :
  (∀ l k, k ∈ so l ↔ k ∈ l) → (∀ l k, k ∈ so' l ↔ k ∈ l) →
  (has_directed_cycle nodes edges ↔ has_directed_cycle nodes' edges') →
  check_is_dag_raw so limit (records nodes) (records edges) = Ok b →
  check_is_dag_raw so' limit' (records nodes') (records edges') = Ok b' →
  b = b'.
Proof.
  intros Hso Hso' Hcyc Hrun Hrun'.
  pose proof (check_is_dag_raw_ok so limit Hso nodes edges) as H.
  pose proof (check_is_dag_raw_ok so' limit' Hso' nodes' edges') as H'.
  rewrite Hrun in H. rewrite Hrun' in H'.
  destruct H as [_ Hb], H' as [_ Hb'].
  pose proof (eq_refl true) as Htrue.
  destruct b, b'; try done; assert (false = true) by tauto; done.
Qed.

(** Two requests that agree on three facts have the same outcome when
    neither has more vertices than [has_cycle] has frames. *)
Lemma check_is_dag_raw_equiv so so' limit limit' nodes nodes' edges edges' :
  (∀ l k, k ∈ so l ↔ k ∈ l) → (∀ l k, k ∈ so' l ↔ k ∈ l) →
  (edges = [] ↔ edges' = []) →
  (well_keyed nodes edges ↔ well_keyed nodes' edges') →
  (has_directed_cycle nodes edges ↔ has_directed_cycle nodes' edges') →
  length (so (inserted_ids nodes)) ≤ S limit →
  length (so' (inserted_ids nodes')) ≤ S limit' →
  check_is_dag_raw so limit (records nodes) (records edges)
  = check_is_dag_raw so' limit' (records nodes') (records edges').
Proof.
  intros Hso Hso' Hnil Hwk Hcyc Hfit Hfit'.
  pose proof (check_is_dag_raw_ok so limit Hso nodes edges) as H.
  pose proof (check_is_dag_raw_ok so' limit' Hso' nodes' edges') as H'.
  destruct (check_is_dag_raw so _ _ _) as [b|ex],
           (check_is_dag_raw so' _ _ _) as [b'|ex'].
  - destruct H as [_ Hb], H' as [_ Hb']. f_equal.
    pose proof (eq_refl true) as Htrue.
    destruct b, b'; try done; assert (false = true) by tauto; done.
  - destruct H as [Hok _], H' as (Hne & [[_ Hnwk]|(_ & _ & Hdeep & _)]);
      [tauto|lia].
  - destruct H' as [Hok _], H as (Hne & [[_ Hnwk]|(_ & _ & Hdeep & _)]);
      [tauto|lia].
  - destruct H as (_ & [[-> _]|(_ & _ & Hdeep & _)]); [|lia].
    destruct H' as (_ & [[-> _]|(_ & _ & Hdeep' & _)]); [done|lia].
Qed.

(** ** Inputs on which the construction returns *)

Lemma collect_ids_Ok l ids :
  collect_ids l = Ok ids → ∃ rs, l = JDict <$> rs.
Proof.
  revert ids. induction l as [|v l IH]; intros ids H.
  - by exists [].
  - destruct v as [| | | | |r]; try done.
    rewrite collect_ids_record in H.
    assert (∃ ids', collect_ids l = Ok ids') as [ids' Hl].
    { destruct (truthy (field r "id")); [|by eauto].
      destruct (hash_key (field r "id")); [|done].
      destruct (collect_ids l); [by eauto|done]. }
    destruct (IH _ Hl) as [rs ->]. by exists (r :: rs).
Qed.

Lemma add_edges_Ok l : ∀ graph graph',
  add_edges l graph = Ok graph' → ∃ rs, l = JDict <$> rs.
Proof.
  induction l as [|v l IH]; intros graph graph' H.
  - by exists [].
  - destruct v as [| | | | |r]; try done.
    rewrite add_edges_record in H.
    destruct (add_edge graph (JDict r)) as [graph1|]; [|done].
    destruct (IH _ _ H) as [rs ->]. by exists (r :: rs).
Qed.

(** [build_graph] returns only on iterables of records. *)
Lemma build_graph_Ok so nodes edges node_ids graph :
  build_graph so nodes edges = Ok (node_ids, graph) →
  ∃ rn re, py_iter nodes = Ok (JDict <$> rn) ∧
           py_iter edges = Ok (JDict <$> re) ∧
           build_graph so (records rn) (records re) = Ok (node_ids, graph).
Proof.
  unfold build_graph. intros H.
  destruct (py_iter nodes) as [nodes_l|] eqn:Hn; [|done].
  cbn [mbind result_bind] in H.
  destruct (collect_ids nodes_l) as [inserted|] eqn:Hids; [|done].
  cbn [mbind result_bind] in H.
  destruct (py_iter edges) as [edges_l|] eqn:He; [|done].
  cbn [mbind result_bind] in H.
  destruct (add_edges edges_l _) as [graph1|] eqn:Hadd; [|done].
  destruct (collect_ids_Ok _ _ Hids) as [rn ->].
  destruct (add_edges_Ok _ _ _ Hadd) as [re ->].
  exists rn, re. split; [done|]. split; [done|].
  unfold records. cbn [py_iter mbind result_bind].
  rewrite Hids. cbn [mbind result_bind]. by rewrite Hadd.
Qed.

(** When the analyzer returns on a list of edges, the handler's printing
    of the first edge has not raised. *)
Lemma print_first_edge_Ok so limit nodes edges b :
  check_is_dag_raw so limit nodes (JList edges) = Ok b →
  print_first_edge (JList edges) = Ok ().
Proof.
  destruct edges as [|v rest]; [done|].
  unfold check_is_dag_raw, check_is_dag_general. cbn [truthy negb].
  destruct (build_graph so nodes (JList (v :: rest))) as [[ids g]|] eqn:Hb;
    [|done].
  intros _. apply build_graph_Ok in Hb as (rn & re & _ & He & _).
  cbn [py_iter] in He. injection He as He.
  destruct re as [|r re]; [done|]. by injection He as -> _.
Qed.

(** ** The request handler on a well-shaped body *)

Lemma parse_pipeline_lists so limit d nodes edges :
  default (JList []) (d !! "nodes") = JList nodes →
  default (JList []) (d !! "edges") = JList edges →
  parse_pipeline so limit (Some (JDict d)) =
  match print_first_edge (JList edges) with
  | Ok _ =>
      match check_is_dag_raw so limit (JList nodes) (JList edges) with
      | Ok is_dag => Analysis (length nodes) (length edges) is_dag
      | Raise x => ErrorPair x 400
      end
  | Raise x => ErrorPair x 400
  end.
Proof.
  intros Hn He. unfold parse_pipeline, try_block.
  cbn [from_option py_get_default mbind result_bind]. rewrite Hn, He.
  cbn [py_len mbind result_bind].
  destruct (print_first_edge (JList edges)); [|done].
  cbn [mbind result_bind].
  by destruct (check_is_dag_raw so limit (JList nodes) (JList edges)).
Qed.

Lemma print_first_edge_records edges : print_first_edge (records edges) = Ok ().
Proof. by destruct edges. Qed.

Lemma parse_pipeline_records so limit d nodes edges :
  default (JList []) (d !! "nodes") = records nodes →
  default (JList []) (d !! "edges") = records edges →
  parse_pipeline so limit (Some (JDict d)) =
  match check_is_dag_raw so limit (records nodes) (records edges) with
  | Ok is_dag => Analysis (length nodes) (length edges) is_dag
  | Raise x => ErrorPair x 400
  end.
Proof.
  intros Hn He.
  rewrite (parse_pipeline_lists so limit d (JDict <$> nodes) (JDict <$> edges)
             Hn He).
  fold (records nodes) (records edges).
  by rewrite print_first_edge_records, !length_fmap.
Qed.

(** ** Main results *)

Lemma no_walk_without_edges nodes n u v :
  ¬ nsteps (valid_edge nodes []) (S n) u v.
Proof.
  intros H. inversion H as [|? ? ? ? (e & ?%elem_of_nil & _)]. done.
Qed.

Section Results.

Variable set_order : list key → list key.
Variable nesting_limit : nat.
Hypothesis set_order_elem : ∀ l k, k ∈ set_order l ↔ k ∈ l.
Hypothesis set_order_NoDup : ∀ l, NoDup (set_order l).

(** C1. Whenever the analyzer returns, [is_dag] is true exactly when the
    graph of the valid ids and valid edges has no directed cycle; and it
    does return when the truthy ids, sources and targets are hashable and
    the node list is no longer than the depth [has_cycle] may reach. *)
Theorem is_dag_iff_acyclic nodes edges :
  (∀ b, check_is_dag_raw set_order nesting_limit
          (records nodes) (records edges) = Ok b →
        (b = true ↔ ¬ has_directed_cycle nodes edges)) ∧
  (scalar_fields nodes edges →
   length nodes ≤ S nesting_limit →
   ∃ b, check_is_dag_raw set_order nesting_limit
          (records nodes) (records edges) = Ok b).
Proof.
  pose proof (check_is_dag_raw_ok set_order nesting_limit set_order_elem
                nodes edges) as H.
  pose proof (vertex_bound set_order nodes set_order_elem set_order_NoDup)
    as Hfit.
  destruct (check_is_dag_raw _ _ _ _) as [b|x].
  - split; [|by eauto]. intros b' [= <-]. apply H.
  - split; [done|]. intros Hs%scalar_fields_well_keyed Hlen.
    destruct H as (_ & [[_ ?]|(_ & _ & Hdeep & _)]); [done|lia].
Qed.

(** C2. On a body whose node and edge entries are lists, of whatever
    elements, the analysis the handler returns carries the lengths of the
    two raw lists; and it is returned whenever the analyzer returns. *)
Theorem parse_pipeline_counts d (nodes edges : list json) :
  default (JList []) (d !! "nodes") = JList nodes →
  default (JList []) (d !! "edges") = JList edges →
  (∀ n e b, parse_pipeline set_order nesting_limit (Some (JDict d))
            = Analysis n e b →
            n = length nodes ∧ e = length edges) ∧
  (∀ b, check_is_dag_raw set_order nesting_limit (JList nodes) (JList edges)
        = Ok b →
        parse_pipeline set_order nesting_limit (Some (JDict d))
        = Analysis (length nodes) (length edges) b).
Proof.
  intros Hn He. rewrite (parse_pipeline_lists _ _ d nodes edges Hn He). split.
  - intros n e b. destruct (print_first_edge _); [|done].
    destruct (check_is_dag_raw _ _ _ _); [|done]. by intros [= <- <- _].
  - intros b Hb. by rewrite (print_first_edge_Ok _ _ _ _ _ Hb), Hb.
Qed.

(** C3. On a body that is not JSON the handler returns normally, with the
    pair of an error and the number 400 as its value; a body that is JSON
    but not an object takes the same path; and a body whose node list is a
    string is analysed as a success. *)
Theorem undecodable_body_outcome :
  parse_pipeline set_order nesting_limit None
  = ErrorPair JSONDecodeError 400 ∧
  parse_pipeline set_order nesting_limit (Some (JList []))
  = ErrorPair AttributeError 400 ∧
  parse_pipeline set_order nesting_limit (request (JStr "abc") (JList []))
  = Analysis 3 0 true.
Proof. repeat split; vm_compute; reflexivity. Qed.

(** C4 (amended). With an empty edge list the analyzer returns true for
    every node list; the general traversal returns the same when every
    truthy id is hashable, and raises [TypeError] otherwise. *)
Theorem empty_edges_short_circuit nodes :
  check_is_dag_raw set_order nesting_limit (records nodes) (records [])
  = Ok true ∧
  (hashable_ids nodes →
   check_is_dag_general set_order nesting_limit (records nodes) (records [])
   = check_is_dag_raw set_order nesting_limit (records nodes) (records [])) ∧
  (¬ hashable_ids nodes →
   check_is_dag_general set_order nesting_limit (records nodes) (records [])
   = Raise TypeError).
Proof.
  split; [done|].
  change (check_is_dag_raw set_order nesting_limit (records nodes) (records []))
    with (@Ok bool true).
  pose proof (check_is_dag_general_ok set_order nesting_limit set_order_elem
                nodes []) as H.
  destruct (check_is_dag_general _ _ _ _) as [b|x].
  - destruct H as [[Hh _] Hb]. split; [|done]. intros _. f_equal.
    apply Hb, no_edges_no_cycle.
  - destruct H as [[-> Hn]|(_ & _ & _ & u & v & Hwalk)].
    + split; [|done]. intros Hh. destruct Hn.
      split; [done|]. by intros e ?%elem_of_nil.
    + by destruct (no_walk_without_edges nodes nesting_limit u v).
Qed.


End Results.


(** C10. Whatever the input and the depth of recursion allowed, when the
    construction of lines 89-100 returns, the keys of the adjacency map
    and of the colour map are the ids of the set, every entry of a
    successor list is one of them, and the search performs no failing
    lookup: it raises no [KeyError], its only exception being
    [RecursionError]. *)
Theorem adjacency_invariant so nesting_limit nodes edges node_ids graph :
  (∀ l k, k ∈ so l ↔ k ∈ l) →
  build_graph so nodes edges = Ok (node_ids, graph) →
  (∀ k, k ∈ node_ids ↔ is_Some (graph !! k)) ∧
  (∀ k, k ∈ node_ids ↔ is_Some (init_color node_ids !! k)) ∧
  (∀ u succs v, graph !! u = Some succs → v ∈ succs → v ∈ node_ids) ∧
  search nesting_limit node_ids graph ≠ Raise KeyError ∧
  (∀ x, search nesting_limit node_ids graph = Raise x → x = RecursionError).
Proof.
  intros Hso (rn & re & _ & _ & H)%build_graph_Ok.
  pose proof (build_graph_ok so Hso rn re) as Hok. rewrite H in Hok.
  destruct Hok as (_ & Hids & Hdom & Hsucc).
  assert (Hclosed : ∀ u succs v,
            graph !! u = Some succs → v ∈ succs → v ∈ node_ids).
  { intros u succs v Hu Hv. apply Hids.
    assert (successor graph u v) as Huv by (by exists succs).
    apply Hsucc in Huv as (e & _ & _ & _ & _ & _ & _ & ?). done. }
  assert (Hx : ∀ x, search nesting_limit node_ids graph = Raise x →
                    x = RecursionError).
  { intros x Hrun.
    pose proof (search_ok graph node_ids) as Hs.
    specialize (Hs
      ltac:(intros u v (succs & Hu & Hv); apply Hdom; by eapply Hclosed)
      ltac:(intros k; by rewrite Hdom) nesting_limit).
    rewrite Hrun in Hs. by destruct Hs as [-> _]. }
  split; [|split; [|split; [done|split; [|done]]]].
  - intros k. by rewrite Hdom.
  - intros k. rewrite init_color_lookup.
    destruct (decide (k ∈ node_ids)) as [Hin|Hnin].
    + split; [eauto|done].
    + split; [done|by intros [? ?]].
  - intros Hrun. by specialize (Hx _ Hrun).
Qed.

(** ** Concrete instances *)



Lemma is_dag_iff_acyclic_witness :
  check_is_dag_raw remove_dups roomy (records [node_a; node_b])
    (records [edge_ab]) = Ok true ∧
  ¬ has_directed_cycle [node_a; node_b] [edge_ab].
Proof.
  assert (check_is_dag_raw remove_dups roomy (records [node_a; node_b])
            (records [edge_ab]) = Ok true) as Hrun
    by (vm_compute; reflexivity).
  split; [exact Hrun|].
  exact (proj1 (proj1 (is_dag_iff_acyclic remove_dups roomy
                         elem_of_remove_dups NoDup_remove_dups
                         [node_a; node_b] [edge_ab]) true Hrun) eq_refl).
Defined.

Lemma parse_pipeline_counts_witness :
  parse_pipeline remove_dups roomy
    (request (records [node_a; node (JInt 0); ∅]) (records [edge_ab; ∅]))
  = Analysis 3 2 true.
Proof.
  refine (proj2 (parse_pipeline_counts remove_dups roomy
    (<["nodes" := records [node_a; node (JInt 0); ∅]]>
       {[ "edges" := records [edge_ab; ∅] ]})
    (JDict <$> [node_a; node (JInt 0); ∅]) (JDict <$> [edge_ab; ∅]) _ _)
    true _); vm_compute; reflexivity.
Defined.

(** With no edges and a list as id, line 86 returns before line 90 would
    hash the list. *)
Lemma short_circuit_masks_type_error :
  check_is_dag_raw remove_dups roomy (records [node_list_id]) (records [])
  = Ok true ∧
  check_is_dag_general remove_dups roomy (records [node_list_id]) (records [])
  = Raise TypeError.
Proof. split; vm_compute; reflexivity. Qed.

Lemma empty_edges_short_circuit_witness :
  check_is_dag_general remove_dups roomy (records [node_a; node_b]) (records [])
  = check_is_dag_raw remove_dups roomy (records [node_a; node_b]) (records []).
Proof.
  apply (empty_edges_short_circuit remove_dups roomy elem_of_remove_dups
           [node_a; node_b]).
  intros n Hn _.
  apply elem_of_cons in Hn as [->|Hn]; [by eexists|].
  apply list_elem_of_singleton in Hn as ->. by eexists.
Defined.

Lemma valid_id_node_a : valid_id [node_a] (KStr "a").
Proof. exists node_a. split; [by left|]. split; reflexivity. Qed.

Lemma valid_edge_aa edges : valid_edge [node_a] (edge_aa :: edges) (KStr "a") (KStr "a").
Proof.
  exists edge_aa. split; [by left|].
  do 4 (split; [reflexivity|]). split; apply valid_id_node_a.
Qed.

(** C5. A self-loop on the vertex "a", followed by an edge whose source is
    a list: whatever the depth of recursion allowed, the edge loop raises
    [TypeError] before the search starts, and no [is_dag] is returned. *)
Theorem self_loop_with_unhashable_source nesting_limit :
  valid_edge [node_a] [edge_aa; edge_list_source] (KStr "a") (KStr "a") ∧
  check_is_dag_raw remove_dups nesting_limit (records [node_a])
    (records [edge_aa; edge_list_source]) = Raise TypeError ∧
  parse_pipeline remove_dups nesting_limit
    (request (records [node_a]) (records [edge_aa; edge_list_source]))
  = ErrorPair TypeError 400.
Proof. split; [apply valid_edge_aa|split; vm_compute; reflexivity]. Qed.

(** C6. With no node and one edge whose source is a list, whatever the
    depth of recursion allowed: [[1] in graph] raises on the empty
    adjacency map too, and the handler answers with its error pair. *)
Theorem empty_nodes_unhashable_source nesting_limit :
  check_is_dag_raw remove_dups nesting_limit (records [])
    (records [edge_list_source]) = Raise TypeError ∧
  parse_pipeline remove_dups nesting_limit
    (request (records []) (records [edge_list_source]))
  = ErrorPair TypeError 400.
Proof. split; vm_compute; reflexivity. Qed.



(** C9. A record that is a mapping, with a list as source of an edge to a
    vertex: whatever the depth of recursion allowed, the analyzer raises
    [TypeError] instead of skipping the record. *)
Theorem unhashable_source_raises nesting_limit :
  check_is_dag_raw remove_dups nesting_limit (records [node_a])
    (records [edge_list_source]) = Raise TypeError.
Proof. vm_compute; reflexivity. Qed.

Lemma adjacency_invariant_witness :
  search roomy [KStr "a"; KStr "b"] graph_ab ≠ Raise KeyError.
Proof.
  refine (proj1 (proj2 (proj2 (proj2 (adjacency_invariant remove_dups roomy
    (records [node_a; node_b]) (records [edge_ab])
    [KStr "a"; KStr "b"] graph_ab elem_of_remove_dups _))))).
  vm_compute; reflexivity.
Defined.

(** ** The scenarios of the specification *)

Example scenario1 :
  parse_pipeline remove_dups roomy
    (request (records [node_a; node_b]) (records [edge_ab]))
  = Analysis 2 1 true.
Proof. vm_compute. reflexivity. Qed.

Example scenario2 :
  parse_pipeline remove_dups roomy
    (request (records [node_a; node_b])
             (records [edge_ab; edge (JStr "b") (JStr "a")]))
  = Analysis 2 2 false.
Proof. vm_compute. reflexivity. Qed.

Example scenario3 :
  parse_pipeline remove_dups roomy
    (request (records [node_a]) (records [edge_aa]))
  = Analysis 1 1 false.
Proof. vm_compute. reflexivity. Qed.

Example scenario4 :
  parse_pipeline remove_dups roomy (request (records []) (records []))
  = Analysis 0 0 true.
Proof. vm_compute. reflexivity. Qed.

Example scenario5 :
  parse_pipeline remove_dups roomy
    (request (records [node_a]) (records [edge (JStr "a") (JStr "missing")]))
  = Analysis 1 1 true.
Proof. vm_compute. reflexivity. Qed.

Example scenario6 :
  parse_pipeline remove_dups roomy
    (request (records [node_a; node_b; node_c])
             (records [edge_ab; edge_bc; edge (JStr "c") (JStr "a")]))
  = Analysis 3 3 false.
Proof. vm_compute. reflexivity. Qed.

(** Python's key equality: the id [true] and the source [1] are one
    vertex. *)
Example bool_int_same_key :
  check_is_dag_raw remove_dups roomy (records [node (JBool true)])
    (records [edge (JInt 1) (JBool true)]) = Ok false.
Proof. vm_compute. reflexivity. Qed.

(** ** The recursion limit at work *)

(** The chain a, b, c nests three calls; with room for two the analyzer
    raises and the handler answers with its error pair. *)
Example deep_chain_raises :
  check_is_dag_raw remove_dups 1 (records [node_a; node_b; node_c])
    (records [edge_ab; edge_bc]) = Raise RecursionError ∧
  check_is_dag_raw remove_dups 2 (records [node_a; node_b; node_c])
    (records [edge_ab; edge_bc]) = Ok true ∧
  parse_pipeline remove_dups 1
    (request (records [node_a; node_b; node_c]) (records [edge_ab; edge_bc]))
  = ErrorPair RecursionError 400.
Proof. repeat split; vm_compute; reflexivity. Qed.

(** The depth reached depends on the order of the successor lists: with
    the edge from a to c listed before the edge from a to b the search
    from a finishes c first and never nests three calls. *)
Example edge_order_matters_at_the_limit :
  check_is_dag_raw remove_dups 1 (records [node_a; node_b; node_c])
    (records [edge_ab; edge_ac; edge_bc]) = Raise RecursionError ∧
  check_is_dag_raw remove_dups 1 (records [node_a; node_b; node_c])
    (records [edge_bc; edge_ac; edge_ab]) = Ok true.
Proof. split; vm_compute; reflexivity. Qed.

(** * Part III: further properties of the search and the handler *)

(** ** The footprint of [has_cycle] *)

Lemma scan_changes_reachable graph visit node :
  (∀ n col b col', visit n col = Ok (b, col') →
     ∀ k, col' !! k ≠ col !! k → rtc (successor graph) n k) →
  ∀ neighbors col b col',
    (∀ n, n ∈ neighbors → successor graph node n) →
    scan visit node neighbors col = Ok (b, col') →
    ∀ k, col' !! k ≠ col !! k → rtc (successor graph) node k.
Proof.
  intros Hvisit neighbors.
  induction neighbors as [|n rest IH]; intros col b col' Hsucc Hrun k Hk.
  - injection Hrun as <- <-. destruct (decide (node = k)) as [->|Hne]; [done|].
    by rewrite lookup_insert_ne in Hk.
  - assert (Hrest : ∀ m, m ∈ rest → successor graph node m).
    { intros m Hm. apply Hsucc. by right. }
    simpl in Hrun. unfold lookup_key in Hrun.
    destruct (col !! n) as [[| |]|]; simpl in Hrun; try done.
    + destruct (visit n col) as [[found col1]|] eqn:Hv; simpl in Hrun; [|done].
      assert (col1 !! k ≠ col !! k → rtc (successor graph) node k) as H1.
      { intros Hne. eapply rtc_l; [apply Hsucc; by left|].
        by eapply Hvisit. }
      destruct found.
      * injection Hrun as <- <-. by apply H1.
      * destruct (decide (col1 !! k = col !! k)) as [E|Hne]; [|by apply H1].
        eapply IH; [done..|]. by rewrite E.
    + by injection Hrun as <- <-.
    + by eapply IH.
Qed.

(** A call changes the colour of vertices reachable from its argument
    only. *)
Lemma has_cycle_changes_reachable graph depth : ∀ node col b col',
  has_cycle depth graph node col = Ok (b, col') →
  ∀ k, col' !! k ≠ col !! k → rtc (successor graph) node k.
Proof.
  induction depth as [|depth IH]; intros node col b col' Hrun k Hk; [done|].
  simpl in Hrun. unfold lookup_key in Hrun.
  destruct (graph !! node) as [all|] eqn:Hall; simpl in Hrun; [|done].
  destruct (decide (node = k)) as [->|Hne]; [done|].
  eapply (scan_changes_reachable graph _ node IH all _ b col');
    [by eexists|done|].
  by rewrite lookup_insert_ne.
Qed.

Lemma recolours_refl col : recolours col col.
Proof. intros k. by left. Qed.

Lemma recolours_trans col1 col2 col3 :
  recolours col1 col2 → recolours col2 col3 → recolours col1 col3.
Proof.
  intros H12 H23 k. destruct (H12 k) as [E12|[Hw Hc]], (H23 k) as [E23|[Hw' Hc']].
  - left. congruence.
  - right. split; [congruence|done].
  - right. split; [done|]. by rewrite E23.
  - destruct Hc; congruence.
Qed.

Lemma has_cycle_end_colour (b : bool) :
  Some (if b then GRAY else BLACK) ≠ Some WHITE.
Proof. by destruct b. Qed.

Lemma scan_recolours visit node :
  (∀ n col b col', col !! n = Some WHITE → visit n col = Ok (b, col') →
     recolours col col') →
  ∀ neighbors col b col',
    col !! node = Some GRAY →
    scan visit node neighbors col = Ok (b, col') →
    (∀ k, k ≠ node → col' !! k = col !! k ∨
                     (col !! k = Some WHITE ∧
                      (col' !! k = Some GRAY ∨ col' !! k = Some BLACK))) ∧
    col' !! node = Some (if b then GRAY else BLACK).
Proof.
  intros Hvisit neighbors.
  induction neighbors as [|n rest IH]; intros col b col' Hnode Hrun.
  - injection Hrun as <- <-. split; [|apply lookup_insert_eq].
    intros k Hk. left. by rewrite lookup_insert_ne.
  - simpl in Hrun. unfold lookup_key in Hrun.
    destruct (col !! n) as [[| |]|] eqn:Hn; simpl in Hrun; try done.
    + destruct (visit n col) as [[found col1]|] eqn:Hv; simpl in Hrun; [|done].
      pose proof (Hvisit _ _ _ _ Hn Hv) as H1.
      assert (col1 !! node = Some GRAY) as Hnode1.
      { destruct (H1 node) as [->|[? _]]; congruence. }
      destruct found.
      * injection Hrun as <- <-. split; [|done]. intros k _. apply H1.
      * destruct (IH _ _ _ Hnode1 Hrun) as [H2 Hend]. split; [|done].
        intros k Hk. destruct (H1 k) as [E1|[Hw Hc]], (H2 k Hk) as [E2|[Hw' Hc']].
        -- left. congruence.
        -- right. split; [congruence|done].
        -- right. split; [done|]. by rewrite E2.
        -- destruct Hc; congruence.
    + injection Hrun as <- <-. split; [|done]. intros k _. by left.
    + by apply IH.
Qed.

(** A call on a white vertex changes the colour of white vertices only,
    never to white, and leaves its vertex gray when it reports a cycle and
    black otherwise. *)
Lemma has_cycle_recolours graph depth : ∀ node col b col',
  col !! node = Some WHITE →
  has_cycle depth graph node col = Ok (b, col') →
  recolours col col' ∧ col' !! node = Some (if b then GRAY else BLACK).
Proof.
  induction depth as [|depth IH]; intros node col b col' Hw Hrun; [done|].
  simpl in Hrun. unfold lookup_key in Hrun.
  destruct (graph !! node) as [all|] eqn:Hall; simpl in Hrun; [|done].
  destruct (scan_recolours (has_cycle depth graph) node
              (λ n c b' c' Hn Hr, proj1 (IH n c b' c' Hn Hr))
              all _ b col' (lookup_insert_eq _ _ _) Hrun) as [Hothers Hend].
  split; [|done]. intros k. destruct (decide (k = node)) as [->|Hne].
  - right. split; [done|]. rewrite Hend. destruct b; auto.
  - destruct (Hothers k Hne) as [E|[Hwk Hc]];
      rewrite lookup_insert_ne in * by done; auto.
Qed.

(** X1. Whenever a call [has_cycle(node)] on a white vertex returns, the
    only colours it has changed are those of white vertices reachable from
    [node], none of them to white; [node] itself is left gray when a cycle
    is reported and black otherwise. *)
Theorem has_cycle_footprint graph depth node col b col' :
  col !! node = Some WHITE →
  has_cycle depth graph node col = Ok (b, col') →
  (∀ k, col' !! k ≠ col !! k →
        rtc (successor graph) node k ∧ col !! k = Some WHITE ∧
        (col' !! k = Some GRAY ∨ col' !! k = Some BLACK)) ∧
  col' !! node = Some (if b then GRAY else BLACK).
Proof.
  intros Hw Hrun.
  destruct (has_cycle_recolours graph depth node col b col' Hw Hrun)
    as [Hrec Hend].
  split; [|done]. intros k Hk. split.
  - by eapply has_cycle_changes_reachable.
  - by destruct (Hrec k) as [?|[Hwk Hc]].
Qed.

(** ** What a single call decides *)

Section Reach.

Variable graph : gmap key (list key).
Variable node_ids : list key.
Hypothesis graph_closed : closed_graph graph.
Hypothesis node_ids_dom : ∀ k, k ∈ node_ids ↔ is_Some (graph !! k).

(** A reported cycle can be reached from the vertex of the call. *)
Lemma has_cycle_true_reach depth : ∀ node col col',
  search_inv graph col →
  col !! node = Some WHITE →
  (∀ x, col !! x = Some GRAY → rtc (successor graph) x node) →
  has_cycle depth graph node col = Ok (true, col') →
  ∃ u, rtc (successor graph) node u ∧ tc (successor graph) u u.
Proof.
  induction depth as [|depth IH]; intros node col col' Hinv Hw Hgray Hrun;
    [done|].
  simpl in Hrun. unfold lookup_key in Hrun.
  destruct (graph !! node) as [all|] eqn:Hall; simpl in Hrun; [|done].
  assert (Hscan : ∀ rest c,
    rest ⊆ all → search_inv graph c → c !! node = Some GRAY →
    (∀ x, c !! x = Some GRAY → rtc (successor graph) x node) →
    scan (has_cycle depth graph) node rest c = Ok (true, col') →
    ∃ u, rtc (successor graph) node u ∧ tc (successor graph) u u).
  { clear Hrun Hw Hgray Hinv col.
    induction rest as [|n rest IHr]; intros c Hsub Hinv Hnode Hgray Hrun;
      [done|].
    assert (Hn : successor graph node n).
    { exists all. split; [done|]. apply Hsub. by left. }
    assert (Hrest : rest ⊆ all).
    { intros x Hx. apply Hsub. by right. }
    simpl in Hrun. unfold lookup_key in Hrun.
    destruct (c !! n) as [[| |]|] eqn:Hc; simpl in Hrun; try done.
    - assert (Hgn : ∀ x, c !! x = Some GRAY → rtc (successor graph) x n).
      { intros x Hx. eapply rtc_r; [by apply Hgray|done]. }
      pose proof (has_cycle_ok graph node_ids graph_closed node_ids_dom depth
                    n c Hinv Hc Hgn) as Hcall.
      destruct (has_cycle depth graph n c) as [[found c1]|] eqn:Heq;
        simpl in Hrun; [|done].
      destruct found.
      + injection Hrun as <-.
        destruct (IH n c c1 Hinv Hc Hgn Heq) as (u & Hu & Hcyc).
        exists u. split; [by eapply rtc_l|done].
      + destruct Hcall as (Hinv1 & _ & _ & Hg1).
        apply (IHr c1); try done.
        * by apply Hg1.
        * intros x Hx. apply Hgray. by apply Hg1.
    - exists node. split; [done|].
      eapply tc_rtc_r; [by apply tc_once|]. by apply Hgray.
    - by apply (IHr c). }
  apply (Hscan all (<[node := GRAY]> col)); try done.
  - by apply (search_inv_gray graph).
  - apply lookup_insert_eq.
  - intros x. destruct (decide (node = x)) as [->|Hne]; [done|].
    rewrite lookup_insert_ne by done. apply Hgray.
Qed.

(** A call on the all-white colouring: when it returns, it reports a
    cycle exactly when one can be reached from its vertex, and otherwise
    leaves black the vertices reachable from it and white the others; it
    fails only when the recursion runs too deep. *)
Lemma first_call_ok node depth :
  node ∈ node_ids →
  match has_cycle depth graph node (init_color node_ids) with
  | Ok (b, col') =>
      (b = true ↔
       ∃ u, rtc (successor graph) node u ∧ tc (successor graph) u u) ∧
      (b = false → ∀ k, k ∈ node_ids →
         (rtc (successor graph) node k → col' !! k = Some BLACK) ∧
         (¬ rtc (successor graph) node k → col' !! k = Some WHITE))
  | Raise x =>
      x = RecursionError ∧ depth < length node_ids ∧
      ∃ v, nsteps (successor graph) depth node v
  end.
Proof.
  intros Hin.
  pose proof (init_color_inv graph node_ids node_ids_dom) as Hinv0.
  assert (init_color node_ids !! node = Some WHITE) as Hw.
  { rewrite init_color_lookup. by rewrite decide_True. }
  assert (∀ x, init_color node_ids !! x = Some GRAY →
               rtc (successor graph) x node) as Hgray.
  { intros x Hx. rewrite init_color_lookup in Hx.
    by destruct (decide (x ∈ node_ids)). }
  pose proof (has_cycle_ok graph node_ids graph_closed node_ids_dom
                depth node _ Hinv0 Hw Hgray) as Hcall.
  destruct (has_cycle depth graph node (init_color node_ids))
    as [[b col']|ex] eqn:Hrun.
  - destruct b.
    + split; [|done]. split; [|done]. intros _.
      by eapply has_cycle_true_reach, Hrun.
    + destruct Hcall as (Hinv & _ & Hblack & _). split.
      * split; [done|]. intros (u & Hu & Hcyc).
        by destruct (inv_black_acyclic _ _ Hinv u
                       (black_closed_rtc graph _ _ _ Hinv Hblack Hu)).
      * intros _ k Hk. split.
        -- intros Hreach. by eapply black_closed_rtc.
        -- intros Hn.
           destruct (decide (col' !! k = init_color node_ids !! k)) as [E|Hne].
           ++ rewrite E, init_color_lookup. by rewrite decide_True.
           ++ destruct Hn. by eapply has_cycle_changes_reachable.
  - destruct Hcall as (-> & Hlt & Hwalk). split; [done|]. split; [|done].
    eapply Nat.lt_le_trans; [exact Hlt|]. apply white_count_le_length.
Qed.

End Reach.

(** X2. On the graph the construction returns, a call [has_cycle(k)] on a
    vertex [k] and the all-white colouring, at any depth of recursion
    allowed: when it returns, it reports a cycle exactly when a cycle can
    be reached from [k], and otherwise it has left black exactly the
    vertices reachable from [k] and white the others; its only exception
    is [RecursionError], raised only when the graph has more vertices than
    the depth allowed and a walk of that many edges leaves [k]. *)
Theorem first_call_decides_reachable_cycle so nodes edges node_ids graph k
    depth :
  (∀ l x, x ∈ so l ↔ x ∈ l) →
  build_graph so nodes edges = Ok (node_ids, graph) →
  k ∈ node_ids →
  match has_cycle depth graph k (init_color node_ids) with
  | Ok (b, col') =>
      (b = true ↔
       ∃ u, rtc (successor graph) k u ∧ tc (successor graph) u u) ∧
      (b = false → ∀ v, v ∈ node_ids →
         (rtc (successor graph) k v → col' !! v = Some BLACK) ∧
         (¬ rtc (successor graph) k v → col' !! v = Some WHITE))
  | Raise x =>
      x = RecursionError ∧ depth < length node_ids ∧
      ∃ v, nsteps (successor graph) depth k v
  end.
Proof.
  intros Hso (rn & re & _ & _ & H)%build_graph_Ok Hk.
  pose proof (build_graph_ok so Hso rn re) as Hok. rewrite H in Hok.
  destruct Hok as (_ & Hids & Hdom & Hsucc).
  apply first_call_ok; [| |done].
  - intros u v Huv. apply Hdom, Hids.
    apply Hsucc in Huv as (e & _ & _ & _ & _ & _ & _ & Hv). done.
  - intros x. by rewrite Hdom.
Qed.

(** ** The adjacency lists in closed form *)

Lemma targets_cons node_ids e edges u :
  targets node_ids (e :: edges) u
  = targets node_ids [e] u ++ targets node_ids edges u.
Proof.
  unfold targets. simpl.
  by destruct (edge_keys e) as [[s t]|]; [destruct (decide _)|].
Qed.

Lemma fmap_app_nil (o : option (list key)) : (λ l, l ++ []) <$> o = o.
Proof. destruct o as [l|]; [|done]. simpl. by rewrite app_nil_r. Qed.

(** One iteration of the edge loop appends the targets of its record. *)
Lemma add_edge_targets node_ids graph e graph' :
  (∀ k, is_Some (graph !! k) ↔ k ∈ node_ids) →
  add_edge graph (JDict e) = Ok graph' →
  (∀ k, is_Some (graph' !! k) ↔ k ∈ node_ids) ∧
  ∀ u, graph' !! u = (λ l, l ++ targets node_ids [e] u) <$> graph !! u.
Proof.
  intros Hdom. rewrite add_edge_record. unfold targets, edge_keys. simpl.
  destruct (truthy (field e "source")); simpl; cycle 1.
  { intros [= <-]. split; [done|]. intros u. by rewrite fmap_app_nil. }
  destruct (truthy (field e "target")); simpl; cycle 1.
  { intros [= <-]. split; [done|]. intros u. by rewrite fmap_app_nil. }
  unfold hash_key.
  destruct (key_of (field e "source")) as [s|]; simpl; [|done].
  destruct (decide (is_Some (graph !! s))) as [Hs|Hs]; cycle 1.
  { intros [= <-]. split; [done|]. intros u.
    destruct (key_of (field e "target")) as [t|]; simpl;
      [|by rewrite fmap_app_nil].
    destruct (decide (s = u ∧ t ∈ node_ids)) as [[-> _]|_];
      [|by rewrite fmap_app_nil].
    destruct (graph !! u); [|done]. destruct Hs. eauto. }
  destruct (key_of (field e "target")) as [t|]; simpl; [|done].
  destruct (decide (is_Some (graph !! t))) as [Ht|Ht]; cycle 1.
  { intros [= <-]. split; [done|]. intros u.
    rewrite decide_False; [by rewrite fmap_app_nil|].
    intros [_ Hin]. by apply Ht, Hdom. }
  destruct Hs as [succs Hs]. unfold lookup_key. rewrite Hs. simpl.
  intros [= <-]. split.
  - intros k. rewrite <- Hdom, lookup_insert_is_Some. split.
    + intros [<-|[_ ?]]; eauto.
    + intros ?. destruct (decide (s = k)); auto.
  - intros u. destruct (decide (s = u)) as [->|Hne].
    + rewrite lookup_insert_eq, Hs. simpl.
      rewrite decide_True; [done|]. split; [done|]. by apply Hdom.
    + rewrite lookup_insert_ne by done.
      rewrite decide_False; [by rewrite fmap_app_nil|]. by intros [? _].
Qed.

Lemma add_edges_targets node_ids edges : ∀ graph graph',
  (∀ k, is_Some (graph !! k) ↔ k ∈ node_ids) →
  add_edges (JDict <$> edges) graph = Ok graph' →
  ∀ u, graph' !! u = (λ l, l ++ targets node_ids edges u) <$> graph !! u.
Proof.
  induction edges as [|e edges IH]; intros graph graph' Hdom Hrun u.
  - injection Hrun as <-. by rewrite fmap_app_nil.
  - rewrite fmap_cons, add_edges_record in Hrun.
    destruct (add_edge graph (JDict e)) as [graph1|] eqn:Hstep; [|done].
    simpl in Hrun.
    destruct (add_edge_targets node_ids graph e graph1 Hdom Hstep)
      as [Hdom1 H1].
    rewrite (IH graph1 graph' Hdom1 Hrun u), H1,
      (targets_cons node_ids e edges u).
    destruct (graph !! u) as [l|]; [|done].
    change (Some ((l ++ targets node_ids [e] u) ++ targets node_ids edges u)
            = Some (l ++ targets node_ids [e] u ++ targets node_ids edges u)).
    by rewrite <- (assoc_L (++)).
Qed.

Lemma init_graph_dom ids k : is_Some (init_graph ids !! k) ↔ k ∈ ids.
Proof.
  rewrite init_graph_lookup. destruct (decide (k ∈ ids)) as [Hin|Hnin].
  - split; [done|eauto].
  - split; [by intros [? ?]|done].
Qed.

(** X3. When the construction returns on lists of records, the successor
    list of every vertex [u] holds the targets of the edge records from [u]
    to a vertex, in the order of the edge list and with repetitions. *)
Theorem adjacency_lists_in_input_order so nodes edges node_ids graph u :
  build_graph so (records nodes) (records edges) = Ok (node_ids, graph) →
  u ∈ node_ids →
  graph !! u = Some (targets node_ids edges u).
Proof.
  unfold build_graph, records. cbn [py_iter mbind result_bind].
  destruct (collect_ids (JDict <$> nodes)) as [inserted|]; [|done].
  cbn [mbind result_bind].
  destruct (add_edges (JDict <$> edges) _) as [graph1|] eqn:Hadd; [|done].
  cbn [mbind result_bind]. intros Heq Hu. simplify_eq.
  rewrite (add_edges_targets (so inserted) edges _ _
             (init_graph_dom (so inserted)) Hadd u).
  rewrite init_graph_lookup. by rewrite decide_True.
Qed.

(** ** Records the analyzer does not look at *)

Lemma valid_edge_mono nodes edges edges' u v :
  (∀ e, e ∈ edges → e ∈ edges') →
  valid_edge nodes edges u v → valid_edge nodes edges' u v.
Proof. intros Hsub (e & Hin & H). exists e. split; [by apply Hsub|done]. Qed.

(** X4. Once the analyzer has answered that the graph is not a DAG, no
    edge list containing the same edge records is answered to be one. *)
Theorem more_edges_never_restore_dag so nesting_limit nodes edges edges' :
  (∀ l k, k ∈ so l ↔ k ∈ l) →
  (∀ e, e ∈ edges → e ∈ edges') →
  check_is_dag_raw so nesting_limit (records nodes) (records edges)
  = Ok false →
  check_is_dag_raw so nesting_limit (records nodes) (records edges')
  ≠ Ok true.
Proof.
  intros Hso Hsub Hrun Hrun'.
  pose proof (check_is_dag_raw_ok so nesting_limit Hso nodes edges) as H.
  pose proof (check_is_dag_raw_ok so nesting_limit Hso nodes edges') as H'.
  rewrite Hrun in H. rewrite Hrun' in H'.
  destruct H as [_ Hb], H' as [_ Hb'].
  assert (¬ has_directed_cycle nodes edges) as Hn.
  { intros [u Hu]. apply (proj1 Hb' eq_refl). exists u.
    eapply tc_impl; [|exact Hu]. intros x y. by apply valid_edge_mono. }
  by specialize (proj2 Hb Hn).
Qed.

(** X5. A node record repeating the id of another node record of the input
    does not change the value of [is_dag], equal ids being one vertex: the
    two answers agree whenever both are given, and the two outcomes are
    the same when neither node list is longer than the depth [has_cycle]
    may reach. *)
Theorem duplicate_id_irrelevant so nesting_limit nodes_before nodes_after
    n n' edges :
  (∀ l k, k ∈ so l ↔ k ∈ l) →
  n ∈ nodes_before ++ nodes_after →
  field n' "id" = field n "id" →
  (∀ b b',
     check_is_dag_raw so nesting_limit
       (records (nodes_before ++ n' :: nodes_after)) (records edges) = Ok b →
     check_is_dag_raw so nesting_limit
       (records (nodes_before ++ nodes_after)) (records edges) = Ok b' →
     b = b') ∧
  ((∀ l, NoDup (so l)) →
   length (nodes_before ++ n' :: nodes_after) ≤ S nesting_limit →
   check_is_dag_raw so nesting_limit
     (records (nodes_before ++ n' :: nodes_after)) (records edges)
   = check_is_dag_raw so nesting_limit
       (records (nodes_before ++ nodes_after)) (records edges)).
Proof.
  intros Hso Hin Hid.
  assert (Hids : ∀ i, has_id (nodes_before ++ n' :: nodes_after) i
                      ↔ has_id (nodes_before ++ nodes_after) i).
  { intros i. split.
    - intros (x & Hx & Hxi).
      apply elem_of_app in Hx as [Hx|[->|Hx]%elem_of_cons].
      + exists x. split; [|done]. apply elem_of_app. by left.
      + exists n. split; [done|congruence].
      + exists x. split; [|done]. apply elem_of_app. by right.
    - intros (x & Hx & Hxi). exists x. split; [|done].
      rewrite elem_of_app, elem_of_cons. apply elem_of_app in Hx. tauto. }
  split.
  - intros b b'. apply check_is_dag_raw_agree; try done.
    by apply has_directed_cycle_same.
  - intros Hnd Hlen. apply check_is_dag_raw_equiv; try done.
    + by apply well_keyed_same.
    + by apply has_directed_cycle_same.
    + pose proof (vertex_bound so (nodes_before ++ n' :: nodes_after) Hso Hnd).
      lia.
    + pose proof (vertex_bound so (nodes_before ++ nodes_after) Hso Hnd) as Hb.
      rewrite length_app in *. simpl in Hlen. lia.
Qed.

Lemma collect_ids_skip before n after :
  truthy (field n "id") = false →
  collect_ids (JDict <$> before ++ n :: after)
  = collect_ids (JDict <$> before ++ after).
Proof.
  intros Hf. induction before as [|m before IH].
  - simpl app. rewrite fmap_cons, collect_ids_record. by rewrite Hf.
  - rewrite <- !app_comm_cons, !fmap_cons, !collect_ids_record. by rewrite IH.
Qed.

(** X6. A node record whose id is missing or falsy (null, false, 0, the
    empty string, the empty list or the empty object) leaves the outcome
    unchanged, wherever it stands in the node list. *)
Theorem falsy_id_node_irrelevant so nesting_limit nodes_before nodes_after
    n edges :
  (∀ l k, k ∈ so l ↔ k ∈ l) →
  truthy (field n "id") = false →
  check_is_dag_raw so nesting_limit
    (records (nodes_before ++ n :: nodes_after)) (records edges)
  = check_is_dag_raw so nesting_limit
      (records (nodes_before ++ nodes_after)) (records edges).
Proof.
  intros _ Hf.
  unfold check_is_dag_raw, check_is_dag_general, build_graph, records.
  cbn [py_iter mbind result_bind]. by rewrite (collect_ids_skip _ _ _ Hf).
Qed.

Lemma dropped_edge_hashable nodes e : dropped_edge nodes e → hashable_edge nodes e.
Proof.
  intros [Hs|[Ht|[(u & Hu & Hn)|(u & v & Hu & Hv & Hn)]]] Hts Htt;
    try congruence.
  - exists u. split; [done|]. by intros ?.
  - exists u. split; [done|]. intros _. rewrite Hv. eauto.
Qed.

Lemma dropped_edge_invalid nodes e u v :
  dropped_edge nodes e → ¬ valid_edge nodes [e] u v.
Proof.
  intros Hd (Hs & Ht & Hks & Hkt & Hu & Hv)%valid_edge_one.
  destruct Hd as [?|[?|[(u' & Hu' & Hn)|(u' & v' & Hu' & Hv' & Hn)]]];
    congruence.
Qed.

Lemma add_edges_app l1 l2 graph :
  add_edges (l1 ++ l2) graph
  = graph' ← add_edges l1 graph; add_edges l2 graph'.
Proof.
  revert graph. induction l1 as [|v l1 IH]; intros graph; [done|].
  simpl. destruct (add_edge graph v); simpl; [apply IH|done].
Qed.

(** The edge loop leaves the adjacency map as it is on a dropped edge. *)
Lemma add_edge_dropped nodes graph e :
  (∀ k, is_Some (graph !! k) ↔ valid_id nodes k) →
  dropped_edge nodes e →
  add_edge graph (JDict e) = Ok graph.
Proof.
  intros Hdom Hd. rewrite add_edge_record.
  destruct (truthy (field e "source")) eqn:Hs; [|done].
  destruct (truthy (field e "target")) eqn:Ht; [|done].
  destruct Hd as [?|[?|[(u & Hu & Hn)|(u & v & Hu & Hv & Hn)]]];
    try congruence; unfold hash_key; rewrite Hu; simpl.
  - rewrite decide_False; [done|]. by intros ?%Hdom.
  - destruct (decide (is_Some (graph !! u))); [|done].
    rewrite Hv. simpl. rewrite decide_False; [done|]. by intros ?%Hdom.
Qed.

(** X7. An edge record that the edge loop drops (a missing or falsy source
    or target, a source that is no vertex, a target that is no vertex)
    leaves the outcome unchanged when added to a non-empty edge list. *)
Theorem dropped_edge_irrelevant so nesting_limit nodes before after e :
  (∀ l k, k ∈ so l ↔ k ∈ l) →
  dropped_edge nodes e →
  before ++ after ≠ [] →
  check_is_dag_raw so nesting_limit (records nodes)
    (records (before ++ e :: after))
  = check_is_dag_raw so nesting_limit (records nodes)
      (records (before ++ after)).
Proof.
  intros Hso Hd Hne. unfold check_is_dag_raw.
  assert (truthy (records (before ++ e :: after)) = true) as ->
    by (by destruct before).
  assert (truthy (records (before ++ after)) = true) as ->.
  { destruct before; [|done]. by destruct after. }
  cbn [negb]. unfold check_is_dag_general. f_equal.
  unfold build_graph, records. cbn [py_iter mbind result_bind].
  pose proof (collect_ids_records nodes) as Hids.
  destruct (collect_ids (JDict <$> nodes)) as [inserted|]; [|done].
  destruct Hids as [_ Hids]. cbn [mbind result_bind].
  rewrite !fmap_app, fmap_cons, !add_edges_app.
  assert (Hdom : ∀ k, is_Some (init_graph (so inserted) !! k)
                      ↔ valid_id nodes k).
  { intros k. by rewrite init_graph_dom, Hso, Hids. }
  pose proof (add_edges_ok nodes before _ Hdom) as Hbefore.
  destruct (add_edges (JDict <$> before) _) as [graph1|]; [|done].
  destruct Hbefore as (_ & Hdom1 & _). cbn [mbind result_bind].
  rewrite add_edges_record. by rewrite (add_edge_dropped nodes graph1 e Hdom1 Hd).
Qed.

(** X8. When some ranking of the keys increases along every valid edge
    (the edges all lead from one layer to a later one), the analyzer never
    answers that the graph is not a DAG, and answers that it is one when
    the truthy ids, sources and targets are hashable and the node list is
    no longer than the depth [has_cycle] may reach. *)
Theorem ranked_edges_are_dag so nesting_limit nodes edges (rank : key → nat) :
  (∀ l k, k ∈ so l ↔ k ∈ l) →
  (∀ u v, valid_edge nodes edges u v → rank u < rank v) →
  check_is_dag_raw so nesting_limit (records nodes) (records edges)
  ≠ Ok false ∧
  ((∀ l, NoDup (so l)) →
   scalar_fields nodes edges →
   length nodes ≤ S nesting_limit →
   check_is_dag_raw so nesting_limit (records nodes) (records edges)
   = Ok true).
Proof.
  intros Hso Hrank.
  assert (∀ u v, tc (valid_edge nodes edges) u v → rank u < rank v) as Htc.
  { intros u v H. induction H as [u v H|u v w H _ IH].
    - by apply Hrank.
    - specialize (Hrank u v H). lia. }
  assert (¬ has_directed_cycle nodes edges) as Hacyc.
  { intros [u Hu]. specialize (Htc u u Hu). lia. }
  pose proof (check_is_dag_raw_ok so nesting_limit Hso nodes edges) as H.
  destruct (check_is_dag_raw _ _ _ _) as [b|x].
  - destruct H as [_ Hb]. rewrite (proj2 Hb Hacyc). done.
  - split; [done|]. intros Hnd Hs%scalar_fields_well_keyed Hlen.
    pose proof (vertex_bound so nodes Hso Hnd).
    destruct H as (_ & [[_ ?]|(_ & _ & Hdeep & _)]); [done|lia].
Qed.

(** ** The exceptions the handler can meet *)

Lemma collect_ids_Raise l x :
  collect_ids l = Raise x → x = TypeError ∨ x = AttributeError.
Proof.
  induction l as [|v l IH]; [done|].
  destruct v as [| | | | |r]; try (intros [= <-]; by right).
  rewrite collect_ids_record.
  destruct (truthy (field r "id")); [|done].
  unfold hash_key. destruct (key_of (field r "id")); simpl.
  - destruct (collect_ids l); [done|]. simpl. intros [= <-]. by apply IH.
  - intros [= <-]. by left.
Qed.

Lemma add_edge_Raise graph v x :
  add_edge graph v = Raise x → x = TypeError ∨ x = AttributeError.
Proof.
  destruct v as [| | | | |r]; try (intros [= <-]; by right).
  rewrite add_edge_record.
  destruct (truthy (field r "source")); [|done].
  destruct (truthy (field r "target")); [|done].
  unfold hash_key.
  destruct (key_of (field r "source")) as [s|]; simpl;
    [|intros [= <-]; by left].
  destruct (decide (is_Some (graph !! s))) as [[succs Hs]|]; [|done].
  destruct (key_of (field r "target")) as [t|]; simpl;
    [|intros [= <-]; by left].
  destruct (decide (is_Some (graph !! t))); [|done].
  unfold lookup_key. by rewrite Hs.
Qed.

Lemma add_edges_Raise l x : ∀ graph,
  add_edges l graph = Raise x → x = TypeError ∨ x = AttributeError.
Proof.
  induction l as [|v l IH]; intros graph; [done|]. simpl.
  destruct (add_edge graph v) as [graph1|y] eqn:Hstep; simpl.
  - apply IH.
  - intros [= <-]. by eapply add_edge_Raise.
Qed.

Lemma py_len_Raise v x : py_len v = Raise x → x = TypeError.
Proof. destruct v; try done; by intros [= <-]. Qed.

Lemma py_iter_Raise v x : py_iter v = Raise x → x = TypeError.
Proof. destruct v; try done; by intros [= <-]. Qed.

(** On arguments of any shape the analyzer raises [TypeError],
    [AttributeError] or, from a graph with more vertices than [has_cycle]
    has frames, [RecursionError]. *)
Lemma check_is_dag_raw_Raise so limit nodes edges x :
  (∀ l k, k ∈ so l ↔ k ∈ l) →
  check_is_dag_raw so limit nodes edges = Raise x →
  x = TypeError ∨ x = AttributeError ∨
  (x = RecursionError ∧
   ∃ node_ids graph, build_graph so nodes edges = Ok (node_ids, graph) ∧
                     S limit < length node_ids).
Proof.
  intros Hso. unfold check_is_dag_raw, check_is_dag_general.
  destruct (negb (truthy edges)); [done|].
  destruct (build_graph so nodes edges) as [[node_ids graph]|y] eqn:Hb.
  - cbn [mbind result_bind]. intros Hrun. right. right.
    pose proof Hb as (rn & re & _ & _ & Hb')%build_graph_Ok.
    pose proof (build_graph_ok so Hso rn re) as Hok. rewrite Hb' in Hok.
    destruct Hok as (_ & Hids & Hdom & Hsucc).
    pose proof (search_ok graph node_ids) as Hs.
    specialize (Hs
      ltac:(intros u v Huv; apply Hdom, Hids;
            by apply Hsucc in Huv as (e & _ & _ & _ & _ & _ & _ & Hv))
      ltac:(intros k; by rewrite Hdom) limit).
    rewrite Hrun in Hs. destruct Hs as (-> & Hlt & _).
    split; [done|]. by exists node_ids, graph.
  - cbn [mbind result_bind]. intros [= <-]. revert Hb. unfold build_graph.
    destruct (py_iter nodes) as [nodes_l|] eqn:Hn; cbn [mbind result_bind];
      [|intros [= <-]; left; by eapply py_iter_Raise].
    destruct (collect_ids nodes_l) as [inserted|] eqn:Hc;
      cbn [mbind result_bind]; cycle 1.
    { intros [= <-]. destruct (collect_ids_Raise _ _ Hc); auto. }
    destruct (py_iter edges) as [edges_l|] eqn:He; cbn [mbind result_bind];
      [|intros [= <-]; left; by eapply py_iter_Raise].
    destruct (add_edges edges_l _) as [graph|] eqn:Ha;
      cbn [mbind result_bind]; [done|].
    intros [= <-]. destruct (add_edges_Raise _ _ _ Ha); auto.
Qed.

Lemma print_first_edge_Raise edges x :
  print_first_edge edges = Raise x →
  x = AttributeError ∨ x = TypeError ∨
  (x = KeyError ∧ ∃ e, edges = JDict e ∧ e ≠ ∅).
Proof.
  unfold print_first_edge. destruct (truthy edges) eqn:Ht; [|done].
  destruct edges as [|b|z|s|l|e]; simpl.
  - done.
  - intros [= <-]. auto.
  - intros [= <-]. auto.
  - destruct s; [done|]. simpl. intros [= <-]. auto.
  - destruct l as [|v l]; [done|]. simpl.
    destruct v; simpl; try done; intros [= <-]; auto.
  - intros [= <-]. right. right. split; [done|]. exists e. split; [done|].
    intros ->. done.
Qed.

(** X9. Whatever the body, when the handler returns its error pair the
    number in it is 400 and the exception is one of five: the decoding
    error, exactly for a body that is not JSON; [AttributeError];
    [TypeError]; [KeyError], only when the edges entry is a non-empty
    object; or [RecursionError], only when the graph was built and has
    more vertices than [has_cycle] has frames.  The search itself never
    contributes a failed lookup. *)
Theorem handler_error_kinds so nesting_limit body x c :
  (∀ l k, k ∈ so l ↔ k ∈ l) →
  parse_pipeline so nesting_limit body = ErrorPair x c →
  c = 400%Z ∧
  ((x = JSONDecodeError ∧ body = None) ∨
   x = AttributeError ∨
   x = TypeError ∨
   (x = KeyError ∧
    ∃ d e, body = Some (JDict d) ∧ d !! "edges" = Some (JDict e) ∧ e ≠ ∅) ∨
   (x = RecursionError ∧
    ∃ d node_ids graph,
      body = Some (JDict d) ∧
      build_graph so (default (JList []) (d !! "nodes"))
        (default (JList []) (d !! "edges")) = Ok (node_ids, graph) ∧
      S nesting_limit < length node_ids)).
Proof.
  intros Hso. unfold parse_pipeline.
  destruct (try_block so nesting_limit body) as [[[n m] b]|y] eqn:Htry; [done|].
  intros [= <- <-]. split; [done|]. revert Htry. unfold try_block.
  destruct body as [raw|]; simpl; [|intros [= <-]; auto].
  destruct raw as [| | | | |d]; try (intros [= <-]; auto).
  cbn [py_get_default mbind result_bind].
  destruct (py_len (default (JList []) (d !! "nodes"))) as [n|] eqn:Hn;
    cbn [mbind result_bind]; cycle 1.
  { intros [= <-]. right. right. left. by eapply py_len_Raise. }
  destruct (py_len (default (JList []) (d !! "edges"))) as [m|] eqn:Hm;
    cbn [mbind result_bind]; cycle 1.
  { intros [= <-]. right. right. left. by eapply py_len_Raise. }
  destruct (print_first_edge _) as [[]|] eqn:Hp; cbn [mbind result_bind];
    cycle 1.
  { intros [= <-].
    destruct (print_first_edge_Raise _ _ Hp) as [->|[->|[-> (o & He & Hne)]]];
      auto.
    right. right. right. left. split; [done|]. exists d, o. split; [done|].
    split; [|done]. destruct (d !! "edges") as [v|]; simpl in He; congruence. }
  destruct (check_is_dag_raw so nesting_limit _ _) as [b|] eqn:Hc;
    cbn [mbind result_bind]; [done|].
  intros [= <-].
  destruct (check_is_dag_raw_Raise so _ _ _ _ Hso Hc)
    as [->|[->|[-> (ids & g & Hb & Hlt)]]]; auto.
  right. right. right. right. split; [done|]. by exists d, ids, g.
Qed.

(** X10. When the nodes entry has a length and the edges entry is missing
    or has length zero (an empty list, string or object), the handler
    answers that length, zero edges and a DAG, without looking at the node
    entries. *)
Theorem no_edges_any_nodes so nesting_limit d n :
  py_len (default (JList []) (d !! "nodes")) = Ok n →
  py_len (default (JList []) (d !! "edges")) = Ok 0 →
  parse_pipeline so nesting_limit (Some (JDict d)) = Analysis n 0 true.
Proof.
  intros Hn Hm. unfold parse_pipeline, try_block.
  cbn [from_option py_get_default mbind result_bind].
  rewrite Hn, Hm. cbn [mbind result_bind].
  assert (truthy (default (JList []) (d !! "edges")) = false) as Hf.
  { clear Hn.
    destruct (default (JList []) (d !! "edges")) as [| | |s|l|e];
      simpl in *; try done.
    - destruct s; [done|]. simpl in Hm. congruence.
    - destruct l; [done|]. simpl in Hm. congruence.
    - injection Hm as ->. done. }
  unfold print_first_edge, check_is_dag_raw. by rewrite Hf.
Qed.

(** ** Field values with the same key *)





(** ** Self-loops, empty node lists and the outcomes of the analyzer *)

(** X12. On an input with a self-loop on a valid id the analyzer never
    returns true, and it returns false when the truthy ids, sources and
    targets are hashable and the node list is no longer than the depth
    [has_cycle] may reach. *)
Theorem self_loop_never_dag so nesting_limit nodes edges k :
  (∀ l x, x ∈ so l ↔ x ∈ l) →
  valid_edge nodes edges k k →
  check_is_dag_raw so nesting_limit (records nodes) (records edges)
  ≠ Ok true ∧
  ((∀ l, NoDup (so l)) →
   scalar_fields nodes edges →
   length nodes ≤ S nesting_limit →
   check_is_dag_raw so nesting_limit (records nodes) (records edges)
   = Ok false).
Proof.
  intros Hso Hloop.
  assert (has_directed_cycle nodes edges) as Hcyc.
  { exists k. by apply tc_once. }
  pose proof (check_is_dag_raw_ok so nesting_limit Hso nodes edges) as H.
  destruct (check_is_dag_raw _ _ _ _) as [b|x].
  - destruct H as [_ Hb]. destruct b.
    + by destruct (proj1 Hb eq_refl).
    + done.
  - split; [done|]. intros Hnd Hs%scalar_fields_well_keyed Hlen.
    pose proof (vertex_bound so nodes Hso Hnd).
    destruct H as (_ & [[_ ?]|(_ & _ & Hdeep & _)]); [done|lia].
Qed.

Lemma set_order_nil (so : list key → list key) :
  (∀ l x, x ∈ so l ↔ x ∈ l) → so [] = [].
Proof.
  intros Hso. destruct (so []) as [|x l] eqn:E; [done|].
  exfalso. apply (elem_of_nil x), Hso. rewrite E. by left.
Qed.

(** X13. With an empty node list, when no edge with truthy source and
    target has an unhashable source, the analyzer returns true at any
    depth of recursion allowed, and the handler reports zero nodes, the
    raw edge count and a DAG. *)
Theorem empty_nodes_always_dag so nesting_limit d edges :
  (∀ l x, x ∈ so l ↔ x ∈ l) →
  default (JList []) (d !! "nodes") = records [] →
  default (JList []) (d !! "edges") = records edges →
  (∀ e, e ∈ edges →
        truthy (field e "source") = true → truthy (field e "target") = true →
        is_Some (key_of (field e "source"))) →
  check_is_dag_raw so nesting_limit (records []) (records edges) = Ok true ∧
  parse_pipeline so nesting_limit (Some (JDict d))
  = Analysis 0 (length edges) true.
Proof.
  intros Hso Hn He Hsrc.
  assert (check_is_dag_raw so nesting_limit (records []) (records edges)
          = Ok true) as Hraw.
  { pose proof (check_is_dag_raw_ok so nesting_limit Hso [] edges) as H.
    destruct (check_is_dag_raw _ _ _ _) as [b|x].
    - destruct H as [_ Hb]. f_equal. apply Hb.
      intros [u Hu].
      assert (∃ v, valid_edge [] edges u v)
        as (v & e & _ & _ & _ & _ & _ & Hv & _).
      { inversion Hu; eauto. }
      destruct Hv as (n & ?%elem_of_nil & _). done.
    - destruct H as (_ & [[_ Hn']|(_ & _ & Hdeep & _)]).
      + destruct Hn'. split.
        * by intros n ?%elem_of_nil.
        * intros e Hin Hs Ht. destruct (Hsrc e Hin Hs Ht) as [u Hu].
          exists u. split; [done|].
          intros (n & ?%elem_of_nil & _). done.
      + change (inserted_ids []) with (@nil key) in Hdeep.
        rewrite (set_order_nil so Hso) in Hdeep. simpl in Hdeep. lia. }
  split; [done|].
  by rewrite (parse_pipeline_records _ _ d [] edges Hn He), Hraw.
Qed.

(** X14. The outcomes of the analyzer on lists of records.  It returns,
    with the answer for the graph of the valid ids and edges, when the
    truthy ids, sources and targets are hashable and the node list is no
    longer than the depth [has_cycle] may reach.  It raises [TypeError]
    only when it hashes a list or a dict, [RecursionError] only when the
    node list is longer than that depth and the valid edges form a walk
    of that length, and no other exception. *)
Theorem analyzer_outcomes so nesting_limit nodes edges :
  (∀ l x, x ∈ so l ↔ x ∈ l) →
  (∀ l, NoDup (so l)) →
  (scalar_fields nodes edges →
   length nodes ≤ S nesting_limit →
   ∃ b, check_is_dag_raw so nesting_limit (records nodes) (records edges)
        = Ok b ∧
        (b = true ↔ ¬ has_directed_cycle nodes edges)) ∧
  (∀ x, check_is_dag_raw so nesting_limit (records nodes) (records edges)
        = Raise x →
        (x = TypeError ∧ ¬ well_keyed nodes edges) ∨
        (x = RecursionError ∧ S nesting_limit < length nodes ∧
         ∃ u v, nsteps (valid_edge nodes edges) (S nesting_limit) u v)).
Proof.
  intros Hso Hnd.
  pose proof (check_is_dag_raw_ok so nesting_limit Hso nodes edges) as H.
  pose proof (vertex_bound so nodes Hso Hnd) as Hfit.
  destruct (check_is_dag_raw _ _ _ _) as [b|x].
  - split; [|done]. intros _ _. exists b. split; [done|]. apply H.
  - split.
    + intros Hs%scalar_fields_well_keyed Hlen.
      destruct H as (_ & [[_ ?]|(_ & _ & Hdeep & _)]); [done|lia].
    + intros y [= <-].
      destruct H as (_ & [[-> ?]|(-> & _ & Hdeep & Hwalk)]); [by left|].
      right. split; [done|]. split; [lia|done].
Qed.

(** ** Concrete instances of the further properties *)

Lemma has_cycle_footprint_witness :
  (∀ k, (<[KStr "a" := BLACK]> (<[KStr "b" := BLACK]> ∅) : gmap key color) !! k
        ≠ init_color [KStr "a"; KStr "b"] !! k →
        rtc (successor graph_ab) (KStr "a") k ∧
        init_color [KStr "a"; KStr "b"] !! k = Some WHITE ∧
        ((<[KStr "a" := BLACK]> (<[KStr "b" := BLACK]> ∅) : gmap key color) !! k
         = Some GRAY ∨
         (<[KStr "a" := BLACK]> (<[KStr "b" := BLACK]> ∅) : gmap key color) !! k
         = Some BLACK)) ∧
  (<[KStr "a" := BLACK]> (<[KStr "b" := BLACK]> ∅) : gmap key color) !! KStr "a"
  = Some BLACK.
Proof.
  apply (has_cycle_footprint graph_ab 2 (KStr "a")
           (init_color [KStr "a"; KStr "b"]) false
           (<[KStr "a" := BLACK]> (<[KStr "b" := BLACK]> ∅)));
    vm_compute; reflexivity.
Defined.

Lemma build_graph_ab :
  build_graph remove_dups (records [node_a; node_b]) (records [edge_ab])
  = Ok ([KStr "a"; KStr "b"], graph_ab).
Proof. vm_compute. reflexivity. Qed.

Lemma first_call_decides_reachable_cycle_witness :
  match has_cycle 2 graph_ab (KStr "a") (init_color [KStr "a"; KStr "b"]) with
  | Ok (b, col') =>
      (b = true ↔
       ∃ u, rtc (successor graph_ab) (KStr "a") u ∧
            tc (successor graph_ab) u u) ∧
      (b = false → ∀ v, v ∈ [KStr "a"; KStr "b"] →
         (rtc (successor graph_ab) (KStr "a") v → col' !! v = Some BLACK) ∧
         (¬ rtc (successor graph_ab) (KStr "a") v → col' !! v = Some WHITE))
  | Raise x =>
      x = RecursionError ∧ 2 < length [KStr "a"; KStr "b"] ∧
      ∃ v, nsteps (successor graph_ab) 2 (KStr "a") v
  end.
Proof.
  apply (first_call_decides_reachable_cycle remove_dups
           (records [node_a; node_b]) (records [edge_ab])
           [KStr "a"; KStr "b"] graph_ab (KStr "a") 2
           elem_of_remove_dups build_graph_ab).
  by left.
Defined.

Lemma adjacency_lists_in_input_order_witness :
  graph_ab !! KStr "a" = Some (targets [KStr "a"; KStr "b"] [edge_ab] (KStr "a")).
Proof.
  apply (adjacency_lists_in_input_order remove_dups [node_a; node_b] [edge_ab]
           [KStr "a"; KStr "b"] graph_ab (KStr "a") build_graph_ab).
  by left.
Defined.

Lemma more_edges_never_restore_dag_witness :
  check_is_dag_raw remove_dups roomy (records [node_a; node_b])
    (records [edge_aa; edge_ab]) ≠ Ok true.
Proof.
  apply (more_edges_never_restore_dag remove_dups roomy [node_a; node_b]
           [edge_aa] [edge_aa; edge_ab] elem_of_remove_dups).
  - intros e ->%list_elem_of_singleton. by left.
  - vm_compute. reflexivity.
Defined.

Lemma duplicate_id_irrelevant_witness :
  check_is_dag_raw remove_dups roomy
    (records [node_a; <["label" := JStr "again"]> node_a; node_b])
    (records [edge_ab])
  = check_is_dag_raw remove_dups roomy (records [node_a; node_b])
      (records [edge_ab]).
Proof.
  apply (duplicate_id_irrelevant remove_dups roomy [node_a] [node_b] node_a
           (<["label" := JStr "again"]> node_a) [edge_ab] elem_of_remove_dups);
    [by left|reflexivity|apply NoDup_remove_dups|vm_compute; lia].
Defined.

Lemma falsy_id_node_irrelevant_witness :
  check_is_dag_raw remove_dups roomy
    (records [node_a; node (JList []); node_b]) (records [edge_ab])
  = check_is_dag_raw remove_dups roomy (records [node_a; node_b])
      (records [edge_ab]).
Proof.
  apply (falsy_id_node_irrelevant remove_dups roomy [node_a] [node_b]
           (node (JList [])) [edge_ab] elem_of_remove_dups).
  reflexivity.
Defined.

Lemma dropped_edge_irrelevant_witness :
  check_is_dag_raw remove_dups roomy (records [node_a; node_b])
    (records [edge_ab; edge (JStr "a") JNull])
  = check_is_dag_raw remove_dups roomy (records [node_a; node_b])
      (records [edge_ab]).
Proof.
  apply (dropped_edge_irrelevant remove_dups roomy [node_a; node_b] [edge_ab]
           [] (edge (JStr "a") JNull) elem_of_remove_dups); [|done].
  right. left. reflexivity.
Defined.

Lemma edge_ab_ranked u v :
  valid_edge [node_a; node_b] [edge_ab] u v → rank_b_last u < rank_b_last v.
Proof.
  intros (e & ->%list_elem_of_singleton & _ & _ & Hu & Hv & _).
  vm_compute in Hu, Hv. injection Hu as <-. injection Hv as <-.
  vm_compute. reflexivity.
Qed.

Lemma ranked_edges_are_dag_witness :
  check_is_dag_raw remove_dups roomy (records [node_a; node_b])
    (records [edge_ab]) ≠ Ok false.
Proof.
  exact (proj1 (ranked_edges_are_dag remove_dups roomy [node_a; node_b]
                  [edge_ab] rank_b_last elem_of_remove_dups edge_ab_ranked)).
Defined.

Lemma handler_error_kinds_witness :
  400%Z = 400%Z ∧
  ((RecursionError = JSONDecodeError ∧
    request (records [node_a; node_b; node_c]) (records [edge_ab; edge_bc])
    = None) ∨
   RecursionError = AttributeError ∨
   RecursionError = TypeError ∨
   (RecursionError = KeyError ∧
    ∃ d e, request (records [node_a; node_b; node_c])
             (records [edge_ab; edge_bc]) = Some (JDict d) ∧
           d !! "edges" = Some (JDict e) ∧ e ≠ ∅) ∨
   (RecursionError = RecursionError ∧
    ∃ d node_ids graph,
      request (records [node_a; node_b; node_c]) (records [edge_ab; edge_bc])
      = Some (JDict d) ∧
      build_graph remove_dups (default (JList []) (d !! "nodes"))
        (default (JList []) (d !! "edges")) = Ok (node_ids, graph) ∧
      2 < length node_ids)).
Proof.
  apply (handler_error_kinds remove_dups 1
           (request (records [node_a; node_b; node_c])
                    (records [edge_ab; edge_bc]))
           RecursionError 400 elem_of_remove_dups).
  vm_compute. reflexivity.
Defined.

Lemma no_edges_any_nodes_witness :
  parse_pipeline remove_dups roomy
    (Some (JDict {[ "nodes" := JList [JInt 1; JList [JInt 2]; JStr "x"] ]}))
  = Analysis 3 0 true.
Proof.
  apply (no_edges_any_nodes remove_dups roomy
           {[ "nodes" := JList [JInt 1; JList [JInt 2]; JStr "x"] ]} 3);
    reflexivity.
Defined.


Lemma self_loop_never_dag_witness :
  check_is_dag_raw remove_dups roomy (records [node_a]) (records [edge_aa])
  = Ok false.
Proof.
  apply (proj2 (self_loop_never_dag remove_dups roomy [node_a] [edge_aa]
                  (KStr "a") elem_of_remove_dups (valid_edge_aa []))
           NoDup_remove_dups).
  - split.
    + intros n ->%list_elem_of_singleton _. by eexists.
    + intros e ->%list_elem_of_singleton. split; intros _; by eexists.
  - vm_compute. lia.
Defined.

Lemma empty_nodes_always_dag_witness :
  check_is_dag_raw remove_dups 0 (records []) (records [edge_ab; edge_aa])
  = Ok true ∧
  parse_pipeline remove_dups 0
    (request (records []) (records [edge_ab; edge_aa]))
  = Analysis 0 2 true.
Proof.
  apply (empty_nodes_always_dag remove_dups 0
    (<["nodes" := records []]> {[ "edges" := records [edge_ab; edge_aa] ]})
    [edge_ab; edge_aa] elem_of_remove_dups); [reflexivity..|].
  intros e He _ _.
  apply elem_of_cons in He as [->|He]; [by eexists|].
  apply list_elem_of_singleton in He as ->. by eexists.
Defined.

Lemma analyzer_outcomes_witness :
  ∃ b, check_is_dag_raw remove_dups roomy (records [node_a; ∅])
         (records [edge_ab; ∅]) = Ok b ∧
       (b = true ↔ ¬ has_directed_cycle [node_a; ∅] [edge_ab; ∅]).
Proof.
  apply (analyzer_outcomes remove_dups roomy [node_a; ∅] [edge_ab; ∅]
           elem_of_remove_dups NoDup_remove_dups).
  - split.
    + intros n Hn Ht.
      apply elem_of_cons in Hn as [->|Hn]; [by eexists|].
      apply list_elem_of_singleton in Hn as ->. done.
    + intros e He.
      apply elem_of_cons in He as [->|He]; [split; intros _; by eexists|].
      apply list_elem_of_singleton in He as ->. split; intros Ht; done.
  - vm_compute. lia.
Defined.
